(** * The chunked translation pipeline of [main.py] and [main2.py]

    A shallow embedding of the page chunker, the API-key pool, the chunk
    processor, the result collection and merging of [main.py], and of the
    text chunker, key rotation, retried request, extraction and
    translation loops and [process_pdf] of [main2.py], with the
    properties of the specification stated over them and further
    properties read off the code.

    Python values are modelled as follows: [str] as [string] (characters
    restricted to one byte), [int] as [nat] where the code only holds a
    length or an index and as [Z] elsewhere, a [list] as [list], the
    [results] dict as a [gmap], a raised exception as the [Raise]
    constructor of [result].  The objects of class [APIKey] are shared and
    mutated in place; they live in the list [api_keys] and a reference to
    one of them is its position in that list.  The tasks of the thread
    pool are run one after the other, in an order that is a parameter of
    the model; what is proved of collecting and merging holds for every
    order in which results arrive.  The bound on the requests of a whole
    run is proved of the tasks interleaved step by step ([run_pool]), of
    which the tasks run one after the other are an instance. *)

From Stdlib Require Import ZArith Lia String Ascii List Permutation.
From stdpp Require Import base option list gmap strings pretty.

Open Scope string_scope.
Set Warnings "-abstract-large-number".

(** ** Python primitives *)

Module Py.

(** Exceptions, with the text kept for [str(e)].  The text is shortened:
    of an HTTP error the reason alone is kept, where [requests] writes
    the status code, the reason and the URL, and a missing key is kept
    without the quotes [str(KeyError)] puts around it. *)
Inductive exn : Type :=
| ZeroDivisionError
| ValueError (msg : string)
| RuntimeError (msg : string)
| LookupError (msg : string)
| LangDetectException (msg : string)
| HTTPError (status_code : Z) (msg : string)
| RequestException (msg : string)
| APIError (msg : string)
| RetryError.

Definition str (e : exn) : string :=
  match e with
  | ZeroDivisionError => "division by zero"
  | ValueError m | RuntimeError m | LookupError m
  | LangDetectException m | RequestException m | APIError m => m
  | HTTPError _ m => m
  | RetryError => "RetryError"
  end.

(** The outcome of a call: a value or a raised exception. *)
Inductive result (A : Type) : Type :=
| Return (a : A)
| Raise (e : exn).
Arguments Return {A} a.
Arguments Raise {A} e.

Definition bind {A B} (r : result A) (k : A -> result B) : result B :=
  match r with
  | Return a => k a
  | Raise e => Raise e
  end.

(** [math.ceil(a / b)] on non-negative integers.  The source divides in
    floating point; the quotient is exact for every length a list can
    have, so the ceiling is the integer one. *)
Definition ceil_div (a b : nat) : result nat :=
  if Nat.eqb b 0 then Raise ZeroDivisionError
  else Return ((a + b - 1) / b).

(** [list(range(0, stop, step))] for a non-negative [step]. *)
Definition range_step (stop step : nat) : result (list nat) :=
  if Nat.eqb step 0 then Raise (ValueError "range() arg 3 must not be zero")
  else Return (List.map (fun k => k * step) (seq 0 ((stop + step - 1) / step))).

(** [l[i:j]] for [0 <= i <= j]. *)
Definition slice {A} (l : list A) (i j : nat) : list A :=
  take (j - i) (drop i l).

(** The line feed, written [\n] in the source. *)
Definition NL : string := String (ascii_of_nat 10) EmptyString.

(** [sep.join(l)]. *)
Definition join (sep : string) (l : list string) : string :=
  String.concat sep l.

(** [c.isspace()] for a one-byte character. *)
Definition isspace (c : ascii) : bool :=
  let n := nat_of_ascii c in
  (((9 <=? n) && (n <=? 13)) || ((28 <=? n) && (n <=? 32))
   || (n =? 133) || (n =? 160))%nat.

Definition cons_word (w : string) (ws : list string) : list string :=
  match w with
  | EmptyString => ws
  | _ => w :: ws
  end.

(** [split_go s] is the pair of the word [s] starts with (empty when [s]
    starts with whitespace) and the words after it. *)
Fixpoint split_go (s : string) : string * list string :=
  match s with
  | EmptyString => (EmptyString, [])
  | String c s' =>
      let (w, ws) := split_go s' in
      if isspace c then (EmptyString, cons_word w ws)
      else (String c w, ws)
  end.

(** [s.split()]: the maximal runs of non-whitespace characters. *)
Definition split (s : string) : list string :=
  let (w, ws) := split_go s in cons_word w ws.

(** [s.strip()]: only its emptiness is ever tested. *)
Definition strip_is_empty (s : string) : bool :=
  forallb isspace (list_ascii_of_string s).

End Py.

Import Py.

#[global] Instance result_ret : MRet result := @Return.
#[global] Instance result_bind : MBind result := fun A B k r => Py.bind r k.

(** Runs the binds of [result] whose first computation is known. *)
Ltac simpl_bind := cbn [mbind result_bind Py.bind].

(** ** The outside world

    The calls that leave the program: the environment, the PDF reader,
    [langdetect.detect] and [requests.post].  [detect] and [post] may
    answer differently from one call to the next; they are indexed by the
    number of HTTP requests made so far. *)

Record Request : Type := {
  req_url : string;
  req_authorization : string;
  req_model : string;
  req_messages : list (string * string)
}.

(** What [response.json()] holds: no JSON at all, or JSON in which the
    path [['choices'][0]['message']['content']] is absent or leads to a
    string.  A content that is present and is not a string (JSON [null],
    a number) has no place here: the properties below speak of servers
    that answer with text or not at all. *)
Inductive Body : Type :=
| NotJson
| Json (content : option string).

Inductive HttpOutcome : Type :=
| Transport (msg : string)
| Response (status_code : Z) (reason : string) (body : Body).

Record World : Type := {
  getenv : string -> option string;
  read_pdf : string -> result (list string);
  detect : nat -> string -> result string;
  post : nat -> Request -> HttpOutcome
}.

(** [response.raise_for_status()]. *)
Definition raise_for_status (status_code : Z) (reason : string) : result unit :=
  if ((400 <=? status_code) && (status_code <? 600))%Z
  then Raise (HTTPError status_code reason)
  else Return tt.

(** [response.json()['choices'][0]['message']['content']]. *)
Definition json_content (b : Body) : result string :=
  match b with
  | NotJson => Raise (ValueError "Expecting value")
  | Json None => Raise (LookupError "choices")
  | Json (Some c) => Return c
  end.

Definition MODEL_NAME : string := "llama-3.3-70b-versatile".

(** ** [main.py] *)

Module Main.

Definition TRANSLATION_URL : string :=
  "https://api.groq.com/openai/v1/chat/completions".

(** [os.getenv(f"API_KEY_{i}") for i in range(0, 11)] *)
Definition API_KEYS (w : World) : list (option string) :=
  List.map (fun i : nat => getenv w ("API_KEY_" +:+ pretty i)) (seq 0 11).

Record APIKey : Type := {
  key : option string;
  used_tokens : nat;
  invalid : bool
}.

Record ChunkProcessor : Type := {
  api_keys : list APIKey;
  chunk_size : nat
}.

(** [ChunkProcessor.__init__] *)
Definition init (w : World) : ChunkProcessor :=
  {| api_keys :=
       List.map (fun k => {| key := k; used_tokens := 0; invalid := false |})
                (API_KEYS w);
     chunk_size := 8 |}.

(** The positions in [api_keys] of the keys that are not invalid; the
    list comprehension of [get_next_api_key] keeps the pool's order. *)
Fixpoint valid_from (i : nat) (ks : list APIKey) : list nat :=
  match ks with
  | [] => []
  | k :: ks' =>
      if invalid k then valid_from (S i) ks' else i :: valid_from (S i) ks'
  end.

Definition valid_keys (self : ChunkProcessor) : list nat :=
  valid_from 0 (api_keys self).

(** [get_next_api_key]: the reference returned is a position in
    [api_keys].  [%] is Python's, non-negative for a positive modulus. *)
Definition get_next_api_key (self : ChunkProcessor) (chunk_index : Z)
  : result nat :=
  let valid := valid_keys self in
  match valid with
  | [] => Raise (RuntimeError "No valid API keys available.")
  | r0 :: _ =>
      Return (nth (Z.to_nat (chunk_index mod Z.of_nat (length valid))) valid r0)
  end.

(** One turn of the loop of [create_chunks]. *)
Definition chunk_step (pages : list string) (pages_per_chunk : nat)
           (chunks : list (list string)) (i : nat) : list (list string) :=
  let chunk := slice pages i (i + pages_per_chunk) in
  match chunk with
  | [] => chunks
  | _ => chunks ++ [chunk]
  end.

Definition create_chunks (self : ChunkProcessor) (pages : list string)
  : result (list (list string)) :=
  let total_pages := length pages in
  n ← ceil_div total_pages 8;
  let num_chunks := Nat.min (length (api_keys self)) n in
  pages_per_chunk ← ceil_div total_pages num_chunks;
  starts ← range_step total_pages pages_per_chunk;
  Return (fold_left (chunk_step pages pages_per_chunk) starts []).

(** [api_key.invalid = True] *)
Definition mark (k : APIKey) : APIKey :=
  {| key := key k; used_tokens := used_tokens k; invalid := true |}.

Definition set_invalid (self : ChunkProcessor) (api_key : nat) : ChunkProcessor :=
  {| api_keys := alter mark api_key (api_keys self);
     chunk_size := chunk_size self |}.

(** [api_key.used_tokens += 1] *)
Definition use (k : APIKey) : APIKey :=
  {| key := key k; used_tokens := S (used_tokens k); invalid := invalid k |}.

Definition add_used (self : ChunkProcessor) (api_key : nat) : ChunkProcessor :=
  {| api_keys := alter use api_key (api_keys self);
     chunk_size := chunk_size self |}.

(** [f'{api_key.key}']; an unset environment variable prints as [None]. *)
Definition key_text (self : ChunkProcessor) (api_key : nat) : string :=
  match api_keys self !! api_key with
  | Some k => default "None" (key k)
  | None => "None"
  end.

(** [translate_text]: one request, no retry.  The state is the processor
    and the number [t] of requests made so far. *)
Definition translate_text (w : World) (self : ChunkProcessor) (t : nat)
           (text target_lang : string) (api_key : nat)
  : ChunkProcessor * nat * result string :=
  let data :=
    {| req_url := TRANSLATION_URL;
       req_authorization := "Bearer " +:+ key_text self api_key;
       req_model := MODEL_NAME;
       req_messages :=
         [("system", "Translate the following text to " +:+ target_lang +:+ ":");
          ("user", text)] |} in
  match post w t data with
  | Transport msg => (self, S t, Raise (RequestException msg))
  | Response status_code reason body =>
      match raise_for_status status_code reason with
      | Raise e => (self, S t, Raise e)
      | Return _ => (add_used self api_key, S t, json_content body)
      end
  end.

(** The dict [process_chunk] returns next to the chunk index. *)
Record ChunkResult : Type := {
  original : string;
  translated : string;
  status : string;
  error : option string
}.

Definition success_result (combined_text translated : string) : ChunkResult :=
  {| original := combined_text; translated := translated;
     status := "success"; error := None |}.

Definition error_result (e : exn) : ChunkResult :=
  {| original := ""; translated := ""; status := "error";
     error := Some (str e) |}.

(** [process_chunk].  The function calls itself after a 401; [fuel]
    bounds the depth of these calls, and [None] stands for a call that
    has not returned within it. *)
Fixpoint process_chunk_rec (fuel : nat) (w : World) (self : ChunkProcessor)
         (t : nat) (chunk : list string) (chunk_index : Z)
  : option (ChunkProcessor * nat * (Z * ChunkResult)) :=
  match fuel with
  | 0 => None
  | S fuel' =>
      match get_next_api_key self chunk_index with
      | Raise e => Some (self, t, (chunk_index, error_result e))
      | Return api_key =>
          let combined_text := join NL chunk in
          match detect w t combined_text with
          | Raise e => Some (self, t, (chunk_index, error_result e))
          | Return source_lang =>
              let target_lang :=
                if String.eqb source_lang "ne" then "English" else "Nepali" in
              match translate_text w self t combined_text target_lang api_key with
              | (self', t', Return translated) =>
                  Some (self', t',
                        (chunk_index, success_result combined_text translated))
              | (self', t', Raise (HTTPError status_code msg)) =>
                  if (status_code =? 401)%Z
                  then process_chunk_rec fuel' w (set_invalid self' api_key) t'
                                         chunk chunk_index
                  else Some (self', t',
                             (chunk_index, error_result (HTTPError status_code msg)))
              | (self', t', Raise e) =>
                  Some (self', t', (chunk_index, error_result e))
              end
          end
      end
  end.

(** One more level than there are keys is always enough
    ([process_chunk_rec_returns]). *)
Definition process_chunk (w : World) (self : ChunkProcessor) (t : nat)
           (chunk : list string) (chunk_index : Z)
  : option (ChunkProcessor * nat * (Z * ChunkResult)) :=
  process_chunk_rec (S (length (api_keys self))) w self t chunk chunk_index.

(** The loop over [as_completed]: [results[chunk_index] = result] for the
    pairs in the order they arrive. *)
Definition collect (arrivals : list (Z * ChunkResult)) : gmap Z ChunkResult :=
  fold_left (fun results a => <[a.1 := a.2]> results) arrivals ∅.

(** [f"=== Chunk {i+1} ===\n{text}"] *)
Definition section_of (i : nat) (text : string) : string :=
  "=== Chunk " +:+ pretty (i + 1) +:+ " ===" +:+ NL +:+ text.

Definition SEPARATOR : string := NL +:+ NL +:+ "---" +:+ NL +:+ NL.

(** One turn of the merging loop; [results[i]] raises [KeyError] when
    the index is absent. *)
Definition merge_step (results : gmap Z ChunkResult)
           (acc : result (list string * list string)) (i : nat)
  : result (list string * list string) :=
  m ← acc;
  match results !! Z.of_nat i with
  | None => Raise (LookupError (pretty i))
  | Some r =>
      if String.eqb (status r) "success"
      then Return ((m.1 ++ [section_of i (original r)])%list,
                   (m.2 ++ [section_of i (translated r)])%list)
      else Return m
  end.

(** The dict [process_document] returns. *)
Record Merged : Type := {
  merged_original : string;
  merged_translated : string
}.

Definition merge (total_chunks : nat) (results : gmap Z ChunkResult)
  : result Merged :=
  m ← fold_left (merge_step results) (seq 0 total_chunks) (Return ([], []));
  Return {| merged_original := join SEPARATOR m.1;
            merged_translated := join SEPARATOR m.2 |}.

(** The thread pool.  The tasks share the processor; the model runs them
    one after the other in the order [schedule] gives, which is also the
    order in which their results arrive.  An index outside the chunks
    names no task. *)
Fixpoint run_tasks (fuel : nat) (w : World) (chunks : list (list string))
         (schedule : list nat) (self : ChunkProcessor) (t : nat)
  : option (ChunkProcessor * nat * list (Z * ChunkResult)) :=
  match schedule with
  | [] => Some (self, t, [])
  | i :: schedule' =>
      match chunks !! i with
      | None => run_tasks fuel w chunks schedule' self t
      | Some chunk =>
          match process_chunk_rec fuel w self t chunk (Z.of_nat i) with
          | None => None
          | Some (self', t', arrival) =>
              match run_tasks fuel w chunks schedule' self' t' with
              | None => None
              | Some (self'', t'', arrivals) =>
                  Some (self'', t'', arrival :: arrivals)
              end
          end
      end
  end.

(** The body of the [try] of [process_document], from the pages on. *)
Definition process_pages (fuel : nat) (w : World) (schedule : list nat)
           (pages : list string) : option (result (option Merged)) :=
  match pages with
  | [] => Some (Return None)
  | _ =>
      let processor := init w in
      match create_chunks processor pages with
      | Raise e => Some (Raise e)
      | Return chunks =>
          let total_chunks := length chunks in
          if Nat.eqb total_chunks 0
          then Some (Raise (ValueError "max_workers must be greater than 0"))
          else
            match run_tasks fuel w chunks schedule processor 0 with
            | None => None
            | Some (_, _, arrivals) =>
                Some (doc ← merge total_chunks (collect arrivals);
                      Return (Some doc))
            end
      end
  end.

(** [process_document]: Python's [None] is returned when there is no
    page with text and when anything raises.  The outer [option] is
    [None] only when a call of [process_chunk] runs out of [fuel]. *)
Definition process_document (fuel : nat) (w : World) (schedule : list nat)
           (file_content : string) : option (option Merged) :=
  match read_pdf w file_content with
  | Raise _ => Some None
  | Return texts =>
      let pages := List.filter (fun text => negb (strip_is_empty text)) texts in
      match process_pages fuel w schedule pages with
      | None => None
      | Some (Raise _) => Some None
      | Some (Return r) => Some r
      end
  end.

(** *** The tasks of the pool, interleaved

    [process_document] gives every chunk a thread of its own
    ([max_workers=total_chunks]); the threads share the processor and the
    server.  A task is followed from one of its accesses to what is
    shared to the next, one flag, one counter or one request at a time,
    and the steps of the tasks interleave in any order.  [run_tasks]
    above is the interleaving in which every task takes all its steps in
    a row. *)

(** Where a call of [process_chunk] stands.  In [Reading next valid] the
    list comprehension of [get_next_api_key] has read the flags of the
    first [next] keys and kept the keys [valid]. *)
Inductive Task : Type :=
| Reading (next : nat) (valid : list nat)
| Chosen (api_key : nat)
| Detected (api_key : nat) (target_lang : string)
| Refused (api_key : nat)
| Answered (api_key : nat) (body : Body)
| Counting (api_key : nat) (used : nat) (body : Body)
| Returned (r : ChunkResult).

(** [process_chunk] is entered. *)
Definition Called : Task := Reading 0 [].

(** The end of [get_next_api_key], with the keys the comprehension has
    kept. *)
Definition pick (valid : list nat) (chunk_index : Z) : result nat :=
  match valid with
  | [] => Raise (RuntimeError "No valid API keys available.")
  | r0 :: _ =>
      Return (nth (Z.to_nat (chunk_index mod Z.of_nat (length valid))) valid r0)
  end.

(** The two halves of [api_key.used_tokens += 1]: the counter is read,
    and one more is stored. *)
Definition get_used (self : ChunkProcessor) (api_key : nat) : nat :=
  match api_keys self !! api_key with
  | Some k => used_tokens k
  | None => 0
  end.

Definition store (n : nat) (k : APIKey) : APIKey :=
  {| key := key k; used_tokens := n; invalid := invalid k |}.

Definition set_used (self : ChunkProcessor) (api_key n : nat) : ChunkProcessor :=
  {| api_keys := alter (store n) api_key (api_keys self);
     chunk_size := chunk_size self |}.

(** The next step of the task of [chunk]:
    - [Reading]: [get_next_api_key] reads the flag of one more key, or,
      past the last key, raises or returns the key of the chunk;
    - [Chosen]: the language is detected;
    - [Detected]: the request is sent and answered;
    - [Refused]: after a 401, the flag of the key is set and
      [process_chunk] calls itself;
    - [Answered], [Counting]: the use is counted, then the content of the
      answer is read and the call returns.
    A task that has returned stays where it is. *)
Definition task_step (w : World) (chunk : list string) (chunk_index : Z)
           (self : ChunkProcessor) (t : nat) (task : Task)
  : ChunkProcessor * nat * Task :=
  let combined_text := join NL chunk in
  match task with
  | Reading next valid =>
      match api_keys self !! next with
      | Some k =>
          (self, t,
           Reading (S next) (if invalid k then valid else (valid ++ [next])%list))
      | None =>
          match pick valid chunk_index with
          | Raise e => (self, t, Returned (error_result e))
          | Return api_key => (self, t, Chosen api_key)
          end
      end
  | Chosen api_key =>
      match detect w t combined_text with
      | Raise e => (self, t, Returned (error_result e))
      | Return source_lang =>
          (self, t,
           Detected api_key
                    (if String.eqb source_lang "ne" then "English" else "Nepali"))
      end
  | Detected api_key target_lang =>
      let data :=
        {| req_url := TRANSLATION_URL;
           req_authorization := "Bearer " +:+ key_text self api_key;
           req_model := MODEL_NAME;
           req_messages :=
             [("system", "Translate the following text to " +:+ target_lang +:+ ":");
              ("user", combined_text)] |} in
      match post w t data with
      | Transport msg =>
          (self, S t, Returned (error_result (RequestException msg)))
      | Response status_code reason body =>
          match raise_for_status status_code reason with
          | Raise (HTTPError code msg) =>
              if (code =? 401)%Z
              then (self, S t, Refused api_key)
              else (self, S t, Returned (error_result (HTTPError code msg)))
          | Raise e => (self, S t, Returned (error_result e))
          | Return _ => (self, S t, Answered api_key body)
          end
      end
  | Refused api_key => (set_invalid self api_key, t, Called)
  | Answered api_key body =>
      (self, t, Counting api_key (get_used self api_key) body)
  | Counting api_key used body =>
      (set_used self api_key (S used), t,
       Returned match json_content body with
                | Return translated => success_result combined_text translated
                | Raise e => error_result e
                end)
  | Returned r => (self, t, Returned r)
  end.

(** The pool at work: the shared processor, the number of requests made
    so far, and the task of every chunk. *)
Record Pool : Type := {
  pool_processor : ChunkProcessor;
  pool_requests : nat;
  pool_tasks : list Task
}.

(** [executor.submit(processor.process_chunk, chunk, i)] for every chunk. *)
Definition submit (self : ChunkProcessor) (t : nat) (chunks : list (list string))
  : Pool :=
  {| pool_processor := self;
     pool_requests := t;
     pool_tasks := (fun _ => Called) <$> chunks |}.

(** The task of chunk [i] takes its next step; an index that names no
    task changes nothing. *)
Definition pool_step (w : World) (chunks : list (list string)) (p : Pool)
           (i : nat) : Pool :=
  match chunks !! i, pool_tasks p !! i with
  | Some chunk, Some task =>
      match task_step w chunk (Z.of_nat i) (pool_processor p) (pool_requests p)
                      task with
      | (self', t', task') =>
          {| pool_processor := self';
             pool_requests := t';
             pool_tasks := <[i := task']> (pool_tasks p) |}
      end
  | _, _ => p
  end.

(** An interleaving: [steps] names the task that moves, step after
    step. *)
Definition run_pool (w : World) (chunks : list (list string))
           (steps : list nat) (p : Pool) : Pool :=
  fold_left (pool_step w chunks) steps p.

End Main.

(** ** [main2.py] *)

Module Main2.

(** [os.getenv(f"API_KEY_{i}") for i in range(9, 11)] *)
Definition API_KEYS (w : World) : list (option string) :=
  List.map (fun i : nat => getenv w ("API_KEY_" +:+ pretty i)) (seq 9 2).

Definition MAX_CHUNK_SIZE : Z := 4000.

Record MetadataExtractor : Type := {
  api_keys : list (option string);
  url : string;
  current_key_index : nat
}.

(** [MetadataExtractor.__init__] *)
Definition init (w : World) : MetadataExtractor :=
  {| api_keys := API_KEYS w;
     url := "https://api.groq.com/openai/v1/chat/completions";
     current_key_index := 0 |}.

(** The extractor, the number of requests made and the seconds slept
    between attempts, latest first. *)
Record State : Type := {
  extractor : MetadataExtractor;
  requests_made : nat;
  slept : list Z
}.

Definition _get_next_api_key (self : MetadataExtractor)
  : MetadataExtractor * result (option string) :=
  match api_keys self with
  | [] => (self, Raise (APIError "No API keys available."))
  | k0 :: _ =>
      let i := (current_key_index self + 1) mod length (api_keys self) in
      ({| api_keys := api_keys self; url := url self; current_key_index := i |},
       Return (nth i (api_keys self) k0))
  end.

(** The state of the loop of [_chunk_text]. *)
Record Chunking : Type := {
  chunks : list string;
  current_chunk : list string;
  current_length : Z
}.

Definition chunk_word (chunk_size : Z) (c : Chunking) (word : string) : Chunking :=
  let word_length := (Z.of_nat (String.length word) + 1)%Z in
  if (chunk_size <? current_length c + word_length)%Z
  then {| chunks := chunks c ++ [join " " (current_chunk c)];
          current_chunk := [word];
          current_length := word_length |}
  else {| chunks := chunks c;
          current_chunk := current_chunk c ++ [word];
          current_length := (current_length c + word_length)%Z |}.

Definition _chunk_text (text : string) (chunk_size : Z) : list string :=
  let words := split text in
  let c := fold_left (chunk_word chunk_size) words
             {| chunks := []; current_chunk := []; current_length := 0 |} in
  match current_chunk c with
  | [] => chunks c
  | _ => chunks c ++ [join " " (current_chunk c)]
  end.

(** The body of [_make_api_request]: one attempt.  The value returned is
    the content found in the JSON of the response, if any.  A body that
    is not JSON makes [response.json()] raise a [RequestException]. *)
Definition attempt (w : World) (messages : list (string * string)) (s : State)
  : State * result (option string) :=
  match _get_next_api_key (extractor s) with
  | (self, Raise e) =>
      ({| extractor := self; requests_made := requests_made s; slept := slept s |},
       Raise e)
  | (self, Return api_key) =>
      let data :=
        {| req_url := url self;
           req_authorization := "Bearer " +:+ default "None" api_key;
           req_model := MODEL_NAME;
           req_messages := messages |} in
      let s' := {| extractor := self; requests_made := S (requests_made s);
                   slept := slept s |} in
      match post w (requests_made s) data with
      | Transport msg =>
          (s', Raise (APIError ("API request failed: " +:+ msg)))
      | Response status_code reason body =>
          match raise_for_status status_code reason with
          | Raise e => (s', Raise (APIError ("API request failed: " +:+ str e)))
          | Return _ =>
              match body with
              | NotJson =>
                  (s', Raise (APIError ("API request failed: " +:+ "Expecting value")))
              | Json content => (s', Return content)
              end
          end
      end
  end.

(** tenacity's [wait_exponential(multiplier, min, max)], in seconds, after
    the attempt numbered [attempt_number] (from 1). *)
Definition wait_exponential (multiplier min max : Z) (attempt_number : nat) : Z :=
  Z.max (Z.max 0 min)
        (Z.min (multiplier * 2 ^ (Z.of_nat attempt_number - 1)) max).

Definition sleep (seconds : Z) (s : State) : State :=
  {| extractor := extractor s; requests_made := requests_made s;
     slept := seconds :: slept s |}.

(** tenacity's [retry(stop=stop_after_attempt(n), wait=wait)]: any
    exception of the wrapped call triggers another attempt; when attempt
    [n] has failed too, [RetryError] is raised. *)
Fixpoint retry {A} (wait : nat -> Z) (f : State -> State * result A)
         (attempts_left attempt_number : nat) (s : State) : State * result A :=
  match attempts_left with
  | 0 => (s, Raise RetryError)
  | S attempts_left' =>
      match f s with
      | (s', Return a) => (s', Return a)
      | (s', Raise e) =>
          match attempts_left' with
          | 0 => (s', Raise RetryError)
          | S _ => retry wait f attempts_left' (S attempt_number)
                         (sleep (wait attempt_number) s')
          end
      end
  end.

Definition _make_api_request (w : World) (messages : list (string * string))
           (s : State) : State * result (option string) :=
  retry (wait_exponential 1 4 10) (attempt w messages) 3 1 s.

(** [detect_language]: any failure of the detector gives ["unknown"]. *)
Definition detect_language (w : World) (t : nat) (text : string) : string :=
  match detect w t text with
  | Return lang => lang
  | Raise _ => "unknown"
  end.

(** The system message of [extract_metadata], a text of six lines, the
    last five indented by twenty spaces. *)
Definition METADATA_PROMPT : string :=
  let indent := "                    " in
  "Extract and organize the following metadata in JSON format:" +:+ NL
  +:+ indent +:+ "- title" +:+ NL
  +:+ indent +:+ "- author" +:+ NL
  +:+ indent +:+ "- publication_date" +:+ NL
  +:+ indent +:+ "- keywords (as array)" +:+ NL
  +:+ indent +:+ "- summary (brief)".

(** One turn of the loop of [extract_metadata]: whatever the request or
    the reading of its answer raises is logged and the piece is skipped. *)
Definition extract_step (w : World) (acc : State * list string) (chunk : string)
  : State * list string :=
  let messages := [("system", METADATA_PROMPT); ("user", chunk)] in
  match _make_api_request w messages acc.1 with
  | (s', Return (Some metadata)) => (s', (acc.2 ++ [metadata])%list)
  | (s', Return None) => (s', acc.2)
  | (s', Raise _) => (s', acc.2)
  end.

Definition extract_metadata (w : World) (s : State) (text : string)
  : State * string :=
  let chunks := _chunk_text text MAX_CHUNK_SIZE in
  let out := fold_left (extract_step w) chunks (s, []) in
  (out.1, join (NL +:+ NL) out.2).

(** One turn of the loop of [translate_text]. *)
Definition translate_step (w : World) (target_lang : string)
           (acc : State * list string) (chunk : string) : State * list string :=
  let messages :=
    [("system", "Translate the following text to " +:+ target_lang +:+ ":");
     ("user", chunk)] in
  match _make_api_request w messages acc.1 with
  | (s', Return (Some translated_chunk)) => (s', (acc.2 ++ [translated_chunk])%list)
  | (s', Return None) => (s', acc.2)
  | (s', Raise _) => (s', acc.2)
  end.

Definition translate_text (w : World) (s : State) (text target_lang : string)
  : State * string :=
  let chunks := _chunk_text text MAX_CHUNK_SIZE in
  let out := fold_left (translate_step w target_lang) chunks (s, []) in
  (out.1, join NL out.2).

(** What [PdfReader] gives [process_pdf]: opening the file may raise, and
    so may [extract_text] on each page. *)
Definition Pdf : Type := result (list (result string)).

(** The loop over the pages of [process_pdf]: a page whose extraction
    raises is skipped, and so is a page without text. *)
Definition readable_pages (extracted : list (result string)) : list string :=
  omap (fun page =>
          match page with
          | Return text => if strip_is_empty text then None else Some text
          | Raise _ => None
          end) extracted.

(** [process_pdf]; the extractor is a new one, [t] requests have been made
    before.  What is raised inside is logged and raised again. *)
Definition process_pdf (w : World) (open_pdf : string -> Pdf) (t : nat)
           (file_content : string) : result (string * string) :=
  extracted ← open_pdf file_content;
  match readable_pages extracted with
  | [] => Raise (ValueError "No extractable text found in the document.")
  | first :: rest =>
      let s := {| extractor := init w; requests_made := t; slept := [] |} in
      let detected_language := detect_language w t first in
      let combined_text := join (NL +:+ NL) (first :: rest) in
      let metadata := (extract_metadata w s combined_text).2 in
      Return (metadata, detected_language)
  end.

End Main2.

(** ** Notions the statements use *)

Section MainNotions.

Import Main.

(** The contiguous groups of [pages_per_chunk] pages, the first [k] of them. *)
Definition groups (pages : list string) (pages_per_chunk k : nat)
  : list (list string) :=
  List.map (fun j => slice pages (j * pages_per_chunk)
                           (j * pages_per_chunk + pages_per_chunk))
           (seq 0 k).

(** The scenario of the specification: twenty pages and three keys give
    chunks of 7, 7 and 6 pages. *)
Definition three_keys : ChunkProcessor :=
  {| api_keys := repeat {| key := None; used_tokens := 0; invalid := false |} 3;
     chunk_size := 8 |}.

(** The ways the program changes a processor: a key is marked invalid,
    or its counter of uses grows.  Nothing clears [invalid]. *)
Inductive mutation : ChunkProcessor -> ChunkProcessor -> Prop :=
| mutation_invalid self r : mutation self (set_invalid self r)
| mutation_used self r : mutation self (add_used self r).

(** The shape of what [process_chunk] returns. *)
Definition well_formed (chunk : list string) (r : ChunkResult) : Prop :=
  (exists translated, r = success_result (join NL chunk) translated)
  \/ (exists e, r = error_result e).

(** The results of the chunks next to their indices, in index order:
    what the tasks hand to the collecting loop, up to the order. *)
Definition indexed (rs : list ChunkResult) : list (Z * ChunkResult) :=
  imap (fun i r => (Z.of_nat i, r)) rs.

(** The labelled sections the specification asks for: one for each
    successful chunk, by increasing index from [i] on, none for a chunk
    with an error. *)
Fixpoint sections_from (field : ChunkResult -> string) (i : nat)
         (rs : list ChunkResult) : list string :=
  match rs with
  | [] => []
  | r :: rs' =>
      if String.eqb (status r) "success"
      then section_of i (field r) :: sections_from field (S i) rs'
      else sections_from field (S i) rs'
  end.

Definition merged_of (rs : list ChunkResult) : Merged :=
  {| merged_original := join SEPARATOR (sections_from original 0 rs);
     merged_translated := join SEPARATOR (sections_from translated 0 rs) |}.

End MainNotions.

Section Main2Notions.

Import Main2.

Fixpoint no_space (s : string) : bool :=
  match s with
  | EmptyString => true
  | String c s' => negb (isspace c) && no_space s'
  end.

(** A word: at least one character, none of them whitespace. *)
Definition is_word (s : string) : Prop := s ≠ "" /\ no_space s = true.

(** What [current_length] holds: the lengths of the words of the current
    chunk, plus one each. *)
Fixpoint total_length (ws : list string) : Z :=
  match ws with
  | [] => 0
  | x :: ws' => Z.of_nat (String.length x) + 1 + total_length ws'
  end.

(** What is known of a finished piece: it is its words joined by single
    spaces, and with more than one word it is shorter than the budget. *)
Definition piece_ok (chunk_size : Z) (p : string) : Prop :=
  p = join " " (split p) /\
  (1 < length (split p) -> (Z.of_nat (String.length p) < chunk_size)%Z).

(** The invariant of the loop of [_chunk_text], [done] being the words
    read so far. *)
Record chunking_ok (chunk_size : Z) (done : list string) (c : Chunking) : Prop := {
  ok_words : (concat (split <$> chunks c) ++ current_chunk c)%list = done;
  ok_current : Forall is_word (current_chunk c);
  ok_length : current_length c = total_length (current_chunk c);
  ok_pieces : Forall (piece_ok chunk_size) (chunks c);
  ok_budget : 1 < length (current_chunk c) -> (current_length c <= chunk_size)%Z
}.

(** 4500 one-letter words, a space after each: 9000 characters. *)
Fixpoint letters (n : nat) : string :=
  match n with
  | 0 => ""
  | S n' => String "a" (String " " (letters n'))
  end.

End Main2Notions.

(** Worlds and inputs for the examples. *)

(** A world in which every request is refused as unauthorized. *)
Definition unauthorized : World :=
  {| getenv := fun _ => None;
     read_pdf := fun _ => Return ["page"];
     detect := fun _ _ => Return "en";
     post := fun _ _ => Response 401 "Unauthorized" NotJson |}.

(** A world whose detector finds no language in what it is given. *)
Definition undetectable : World :=
  {| getenv := fun _ => None;
     read_pdf := fun _ => Return ["12345"];
     detect := fun _ _ => Raise (LangDetectException "No features in text.");
     post := fun _ _ => Response 200 "OK" (Json (Some "translated")) |}.

(** A world whose server is overloaded: every request is answered 503. *)
Definition unavailable : World :=
  {| getenv := fun _ => None;
     read_pdf := fun _ => Return ["page"];
     detect := fun _ _ => Return "en";
     post := fun _ _ => Response 503 "Service Unavailable" NotJson |}.


Definition fresh (w : World) : Main2.State :=
  {| Main2.extractor := Main2.init w; Main2.requests_made := 0; Main2.slept := [] |}.

(** 9000 characters in one word. *)
Fixpoint long_word (n : nat) : string :=
  match n with
  | 0 => ""
  | S n' => String "x" (long_word n')
  end.

(** ** Notions the further properties use *)

(** The uses counted over the whole pool. *)
Definition total_used (self : Main.ChunkProcessor) : nat :=
  sum_list (Main.used_tokens <$> Main.api_keys self).

(** What a processor may become: as long as before, every key with the
    secret it had, no fewer uses, and invalid if it was. *)
Definition grown (self self' : Main.ChunkProcessor) : Prop :=
  length (Main.api_keys self') = length (Main.api_keys self) /\
  forall i k, Main.api_keys self !! i = Some k ->
    exists k', Main.api_keys self' !! i = Some k' /\
               Main.key k' = Main.key k /\
               Main.used_tokens k <= Main.used_tokens k' /\
               (Main.invalid k = true -> Main.invalid k' = true).

(** An answer that makes an attempt of [_make_api_request] raise: no
    answer at all, an HTTP error, or a body that is not JSON. *)
Definition failing (o : HttpOutcome) : Prop :=
  match o with
  | Transport _ => True
  | Response status_code _ body =>
      (400 <= status_code < 600)%Z \/ body = NotJson
  end.

(** [k] calls of [_get_next_api_key] in a row, with the keys they give;
    the calls stop at the first that raises. *)
Fixpoint next_keys (k : nat) (self : Main2.MetadataExtractor)
  : Main2.MetadataExtractor * list (option string) :=
  match k with
  | 0 => (self, [])
  | S k' =>
      match Main2._get_next_api_key self with
      | (self', Return key) =>
          ((next_keys k' self').1, key :: (next_keys k' self').2)
      | (self', Raise _) => (self', [])
      end
  end.

(** The loop [extract_metadata] and [translate_text] share, [prompt] giving
    the messages sent for a piece. *)
Definition piece_step (w : World) (prompt : string -> list (string * string))
           (acc : Main2.State * list string) (chunk : string)
  : Main2.State * list string :=
  match Main2._make_api_request w (prompt chunk) acc.1 with
  | (s', Return (Some answer)) => (s', (acc.2 ++ [answer])%list)
  | (s', Return None) => (s', acc.2)
  | (s', Raise _) => (s', acc.2)
  end.

Definition metadata_prompt (chunk : string) : list (string * string) :=
  [("system", Main2.METADATA_PROMPT); ("user", chunk)].

Definition translation_prompt (target_lang chunk : string) : list (string * string) :=
  [("system", "Translate the following text to " +:+ target_lang +:+ ":");
   ("user", chunk)].

(** The answers to the pieces when the request for each is answered at
    once, the first at time [t]. *)
Fixpoint answers_from (answer : nat -> list (string * string) -> string)
         (prompt : string -> list (string * string)) (t : nat)
         (pieces : list string) : list string :=
  match pieces with
  | [] => []
  | piece :: pieces' =>
      answer t (prompt piece) :: answers_from answer prompt (S t) pieces'
  end.

(** A world in which the first request is refused and the later ones are
    answered. *)
Definition one_refusal : World :=
  {| getenv := fun _ => None;
     read_pdf := fun _ => Return ["page"];
     detect := fun _ _ => Return "ne";
     post := fun t _ =>
               if Nat.eqb t 0 then Response 401 "Unauthorized" NotJson
               else Response 200 "OK" (Json (Some "translated")) |}.

(** A world whose server answers from the third request on. *)
Definition third_time_lucky : World :=
  {| getenv := fun _ => None;
     read_pdf := fun _ => Return ["page"];
     detect := fun _ _ => Return "en";
     post := fun t _ =>
               if Nat.ltb t 2 then Transport "connection reset"
               else Response 200 "OK" (Json (Some "answer")) |}.

(** A world that answers every request with the user message it was sent. *)
Definition echo : World :=
  {| getenv := fun _ => None;
     read_pdf := fun _ => Return ["page"];
     detect := fun _ _ => Return "en";
     post := fun _ req =>
               Response 200 "OK"
                        (Json (Some (default "" (snd <$> last (req_messages req))))) |}.

(** A document of three pages: the first is blank, the extraction of the
    second raises, the third has text. *)
Definition three_pages : string -> Main2.Pdf :=
  fun _ => Return [Return "  "; Raise (ValueError "broken page"); Return "third page"].

(** The request [translate_text] of [main.py] sends for a text with the
    key at position [i] of a new processor, [lang] being what the
    detector said of the text. *)
Definition translation_request (w : World) (i : nat) (text lang : string)
  : Request :=
  {| req_url := Main.TRANSLATION_URL;
     req_authorization :=
       "Bearer " +:+ default "None" (getenv w ("API_KEY_" +:+ pretty i));
     req_model := MODEL_NAME;
     req_messages :=
       [("system",
         "Translate the following text to "
         +:+ (if String.eqb lang "ne" then "English" else "Nepali") +:+ ":");
        ("user", text)] |}.

(** The result of chunk [i] when its request is answered. *)
Definition answered (w : World) (answer : Request -> string)
           (language : string -> string) (i : nat) (chunk : list string)
  : Main.ChunkResult :=
  Main.success_result
    (join NL chunk)
    (answer (translation_request w i (join NL chunk) (language (join NL chunk)))).

(** A processor on which nothing but uses has been counted. *)
Definition untouched (w : World) (self : Main.ChunkProcessor) : Prop :=
  Main.valid_keys self = seq 0 11 /\
  forall i, Main.key_text self i = Main.key_text (Main.init w) i.

(** An interleaving of two tasks: each chooses its key, eleven flags
    and the choice taking twelve steps; the first is refused and chooses
    the key of the second; both are refused with it; both choose again
    and send a request. *)
Definition refused_twice : list nat :=
  (replicate 12 0 ++ replicate 12 1 ++ [0; 0; 0]
   ++ replicate 12 0 ++ [0; 0; 1; 1; 0; 1]
   ++ replicate 12 0 ++ replicate 12 1 ++ [0; 0; 1; 1])%list.

(** What holds of a task of the pool and of the keys [asked] it has sent
    a request with, [self0] being the processor when the pool started:
    every key was asked once and was valid at the start, and the keys the
    task has set invalid are invalid. *)
Definition asked_ok (self0 self : Main.ChunkProcessor) (task : Main.Task)
           (asked : list nat) : Prop :=
  NoDup asked /\
  (forall r, r ∈ asked -> r ∈ Main.valid_keys self0) /\
  match task with
  | Main.Reading _ valid =>
      (forall r, r ∈ valid -> r ∈ Main.valid_keys self0 /\ (r ∉ asked)) /\
      forall r, r ∈ asked -> r ∉ Main.valid_keys self
  | Main.Chosen r | Main.Detected r _ =>
      r ∈ Main.valid_keys self0 /\ (r ∉ asked) /\
      forall r', r' ∈ asked -> r' ∉ Main.valid_keys self
  | Main.Refused r =>
      exists rest, asked = r :: rest /\
                   forall r', r' ∈ rest -> r' ∉ Main.valid_keys self
  | _ => True
  end.

(** What holds of the pool, [asked] listing the keys asked task by task. *)
Definition pool_ok (self0 : Main.ChunkProcessor) (t0 n : nat) (p : Main.Pool)
           (asked : list (list nat)) : Prop :=
  Forall2 (asked_ok self0 (Main.pool_processor p)) (Main.pool_tasks p) asked /\
  length asked = n /\
  Main.pool_requests p = t0 + sum_list (length <$> asked) /\
  (forall r, r ∈ Main.valid_keys (Main.pool_processor p) ->
             r ∈ Main.valid_keys self0) /\
  length (Main.valid_keys (Main.pool_processor p))
  <= length (Main.valid_keys self0).

Section TextNotions.

Import Main2.

(** What holds of the loop when every word is shorter than the budget. *)
Record chunking_fits (chunk_size : Z) (c : Chunking) : Prop := {
  fits_pieces :
    Forall (fun p => p ≠ "" /\ (Z.of_nat (String.length p) < chunk_size)%Z)
           (chunks c);
  fits_current : current_chunk c ≠ [] -> (current_length c <= chunk_size)%Z
}.

End TextNotions.

(** * Properties *)

(** ** The page chunker *)

Section Chunker.

Import Main.

Lemma Return_inj {A} (a b : A) : Return a = Return b -> a = b.
Proof. intros [= ->]. reflexivity. Qed.

Lemma ceil_div_spec (a b n : nat) :
  ceil_div a b = Return n -> b ≠ 0 /\ a <= n * b /\ (a ≠ 0 -> (n - 1) * b < a).
Proof.
  unfold ceil_div. destruct (Nat.eqb_spec b 0) as [->|Hb]; [discriminate|].
  intros [= <-]. split; [exact Hb|].
  pose proof (Nat.div_mod (a + b - 1) b Hb) as Hdm.
  pose proof (Nat.mod_upper_bound (a + b - 1) b Hb) as Hlt.
  split; [nia|]. intros Ha. nia.
Qed.

Lemma ceil_div_pos (a b n : nat) :
  ceil_div a b = Return n -> a ≠ 0 -> n ≠ 0.
Proof.
  intros H Ha. apply ceil_div_spec in H as (_ & Hle & _). nia.
Qed.

Lemma slice_nonempty (pages : list string) (i n : nat) :
  i < length pages -> n ≠ 0 -> slice pages i (i + n) ≠ [].
Proof.
  intros Hi Hn Hnil. apply (f_equal length) in Hnil.
  unfold slice in Hnil. rewrite length_take, length_drop in Hnil.
  simpl in Hnil. lia.
Qed.

Lemma slice_length (pages : list string) (i n : nat) :
  length (slice pages i (i + n)) = Nat.min n (length pages - i).
Proof.
  unfold slice. rewrite length_take, length_drop.
  replace (i + n - i) with n by lia. reflexivity.
Qed.

Lemma loop_groups (pages : list string) (ppc k : nat) :
  ppc ≠ 0 -> k * ppc < length pages + ppc ->
  fold_left (chunk_step pages ppc) (List.map (fun j => j * ppc) (seq 0 k)) []
  = groups pages ppc k.
Proof.
  intros Hp. induction k as [|k IH]; intros Hk; [reflexivity|].
  unfold groups. rewrite seq_S, !List.map_app, fold_left_app. simpl.
  rewrite IH by lia. unfold chunk_step at 1.
  destruct (slice pages (k * ppc) (k * ppc + ppc)) eqn:Hs.
  - exfalso. revert Hs. apply slice_nonempty; [nia | exact Hp].
  - reflexivity.
Qed.

Lemma concat_groups (pages : list string) (ppc k : nat) :
  concat (groups pages ppc k) = take (k * ppc) pages.
Proof.
  induction k as [|k IH]; [reflexivity|].
  unfold groups in *. rewrite seq_S, List.map_app, concat_app, IH. simpl.
  rewrite app_nil_r. unfold slice.
  replace (k * ppc + ppc - k * ppc) with ppc by lia.
  rewrite take_take_drop. f_equal. lia.
Qed.

Lemma groups_length (pages : list string) (ppc k : nat) :
  length (groups pages ppc k) = k.
Proof. unfold groups. rewrite length_map. apply length_seq. Qed.

Lemma groups_lookup (pages : list string) (ppc k j : nat) :
  j < k ->
  groups pages ppc k !! j = Some (slice pages (j * ppc) (j * ppc + ppc)).
Proof.
  intros Hj. unfold groups. rewrite list_lookup_fmap.
  rewrite lookup_seq_lt by exact Hj. reflexivity.
Qed.

(** What [create_chunks] computes when there are pages and keys. *)
Lemma create_chunks_groups (self : ChunkProcessor) (pages : list string) :
  pages ≠ [] -> api_keys self ≠ [] ->
  exists n num_chunks pages_per_chunk k,
    ceil_div (length pages) 8 = Return n /\
    num_chunks = Nat.min (length (api_keys self)) n /\
    ceil_div (length pages) num_chunks = Return pages_per_chunk /\
    ceil_div (length pages) pages_per_chunk = Return k /\
    create_chunks self pages = Return (groups pages pages_per_chunk k).
Proof.
  intros Hpages Hkeys.
  assert (Hlen : length pages ≠ 0) by (destruct pages; simpl; congruence).
  assert (Hklen : length (api_keys self) ≠ 0)
    by (destruct (api_keys self); simpl; congruence).
  destruct (ceil_div (length pages) 8) as [n|e] eqn:Hn;
    [|unfold ceil_div in Hn; discriminate].
  pose proof (ceil_div_pos _ _ _ Hn Hlen) as Hn0.
  set (nc := Nat.min (length (api_keys self)) n).
  assert (Hnc : nc ≠ 0) by (unfold nc; lia).
  destruct (ceil_div (length pages) nc) as [ppc|e] eqn:Hppc;
    [|unfold ceil_div in Hppc; destruct (Nat.eqb_spec nc 0); [lia|discriminate]].
  pose proof (ceil_div_pos _ _ _ Hppc Hlen) as Hppc0.
  exists n, nc, ppc, ((length pages + ppc - 1) / ppc).
  assert (Hk : ceil_div (length pages) ppc = Return ((length pages + ppc - 1) / ppc)).
  { unfold ceil_div. destruct (Nat.eqb_spec ppc 0); [lia|reflexivity]. }
  repeat split; try assumption; try reflexivity.
  unfold create_chunks. rewrite Hn. simpl_bind.
  fold nc. rewrite Hppc. simpl_bind.
  unfold range_step. destruct (Nat.eqb_spec ppc 0); [lia|].
  simpl_bind.
  f_equal. apply loop_groups; [exact Hppc0|].
  apply ceil_div_spec in Hk as (_ & _ & Hk). specialize (Hk Hlen). nia.
Qed.

(** The pool [ChunkProcessor()] builds always holds eleven keys, set in
    the environment or not. *)
Lemma init_api_keys (w : World) :
  length (api_keys (init w)) = 11 /\ api_keys (init w) ≠ [].
Proof. split; [reflexivity | discriminate]. Qed.

(** C1.  For a non-empty sequence of pages (and a pool that holds at
    least one key, as the one [ChunkProcessor()] builds always does),
    [create_chunks] returns contiguous chunks whose concatenation, in
    order, is the page sequence; no chunk is empty; there are at most
    [num_chunks = min(len(api_keys), ceil(len(pages) / 8))] of them; and
    chunk [j] is the slice of [pages_per_chunk = ceil(len(pages) /
    num_chunks)] pages starting at [j * pages_per_chunk], every chunk
    but the last holding exactly [pages_per_chunk] pages. *)
Theorem create_chunks_partition (self : ChunkProcessor) (pages : list string) :
  pages ≠ [] -> api_keys self ≠ [] ->
  let total_pages := length pages in
  let num_chunks := Nat.min (length (api_keys self)) ((total_pages + 7) / 8) in
  let pages_per_chunk := (total_pages + num_chunks - 1) / num_chunks in
  exists chunks,
    create_chunks self pages = Return chunks /\
    concat chunks = pages /\
    Forall (fun c => c ≠ []) chunks /\
    length chunks <= num_chunks /\
    forall j c, chunks !! j = Some c ->
      c = slice pages (j * pages_per_chunk) (j * pages_per_chunk + pages_per_chunk) /\
      length c <= pages_per_chunk /\
      (S j < length chunks -> length c = pages_per_chunk).
Proof.
  intros Hpages Hkeys total_pages num_chunks pages_per_chunk.
  destruct (create_chunks_groups self pages Hpages Hkeys)
    as (n & nc & ppc & k & Hn & Hnc & Hppc & Hk & Hcc).
  assert (Hlen : total_pages ≠ 0)
    by (unfold total_pages; destruct pages; simpl; congruence).
  assert (n = (total_pages + 7) / 8) as ->.
  { apply Return_inj. rewrite <- Hn. unfold ceil_div, total_pages.
    change (Nat.eqb 8 0) with false. cbv iota. do 2 f_equal. lia. }
  assert (nc = num_chunks) as -> by exact Hnc.
  pose proof (ceil_div_spec _ _ _ Hppc) as (Hnc0 & Hup & _).
  assert (ppc = pages_per_chunk) as ->.
  { apply Return_inj. rewrite <- Hppc. unfold ceil_div.
    destruct (Nat.eqb_spec num_chunks 0); [lia|reflexivity]. }
  pose proof (ceil_div_spec _ _ _ Hk) as (Hppc0 & Hkup & Hklow).
  specialize (Hklow Hlen). fold total_pages in Hup, Hkup, Hklow.
  exists (groups pages pages_per_chunk k). split; [exact Hcc|].
  split; [|split; [|split]].
  - rewrite concat_groups. apply take_ge. fold total_pages. lia.
  - apply Forall_forall. intros c Hc.
    apply list_elem_of_lookup in Hc as [j Hj].
    assert (Hjk : j < k).
    { apply lookup_lt_Some in Hj. rewrite groups_length in Hj. exact Hj. }
    rewrite groups_lookup in Hj by exact Hjk. injection Hj as <-.
    apply slice_nonempty; [fold total_pages; nia | exact Hppc0].
  - rewrite groups_length.
    destruct (Nat.le_gt_cases k num_chunks) as [Hle|Hgt]; [exact Hle|nia].
  - intros j c Hj.
    assert (Hjk : j < k).
    { apply lookup_lt_Some in Hj. rewrite groups_length in Hj. exact Hj. }
    rewrite groups_lookup in Hj by exact Hjk. injection Hj as <-.
    split; [reflexivity|]. rewrite slice_length, groups_length.
    fold total_pages. split; [lia|]. intros HS. nia.
Qed.

Lemma create_chunks_partition_witness :
  exists chunks,
    create_chunks three_keys (repeat "page" 20) = Return chunks /\
    List.map length chunks = [7; 7; 6].
Proof.
  destruct (create_chunks_partition three_keys (repeat "page" 20))
    as (chunks & Hcc & _); [discriminate | discriminate |].
  exists chunks. split; [exact Hcc|].
  vm_compute in Hcc. injection Hcc as <-. reflexivity.
Defined.

(** On an empty page sequence [num_chunks] is 0 and the division by it
    raises [ZeroDivisionError], whatever the pool. *)
Lemma create_chunks_empty_raises (self : ChunkProcessor) :
  create_chunks self [] = Raise ZeroDivisionError.
Proof.
  unfold create_chunks. cbn. rewrite Nat.min_0_r. reflexivity.
Qed.

(** C2 as claimed (an empty chunk sequence is returned, nothing is
    raised) fails for the processor the program builds. *)
Lemma create_chunks_empty_counterexample :
  create_chunks (init unauthorized) [] = Raise ZeroDivisionError
  /\ create_chunks (init unauthorized) [] ≠ Return [].
Proof. split; [reflexivity | discriminate]. Qed.

End Chunker.

(** ** The key pool *)

Section Pool.

Import Main.

Lemma valid_from_spec (ks : list APIKey) (i r : nat) :
  r ∈ valid_from i ks <->
  i <= r /\ exists k, ks !! (r - i) = Some k /\ invalid k = false.
Proof.
  revert i. induction ks as [|k ks IH]; intros i; simpl.
  - split; [intros H; inversion H | intros (_ & k & Hk & _); discriminate].
  - destruct (invalid k) eqn:Hinv.
    + rewrite IH. split.
      * intros (Hle & k' & Hk' & Hv). split; [lia|].
        exists k'. split; [|exact Hv].
        replace (r - i) with (S (r - S i)) by lia. exact Hk'.
      * intros (Hle & k' & Hk' & Hv).
        destruct (r - i) as [|n] eqn:Hn; simpl in Hk'.
        { injection Hk' as ->. congruence. }
        split; [lia|]. exists k'. split; [|exact Hv].
        replace (r - S i) with n by lia. exact Hk'.
    + rewrite elem_of_cons, IH. split.
      * intros [->|(Hle & k' & Hk' & Hv)].
        { split; [lia|]. exists k. rewrite Nat.sub_diag. split; [reflexivity|exact Hinv]. }
        split; [lia|]. exists k'. split; [|exact Hv].
        replace (r - i) with (S (r - S i)) by lia. exact Hk'.
      * intros (Hle & k' & Hk' & Hv).
        destruct (r - i) as [|n] eqn:Hn; simpl in Hk'.
        { left. lia. }
        right. split; [lia|]. exists k'. split; [|exact Hv].
        replace (r - S i) with n by lia. exact Hk'.
Qed.

Lemma valid_keys_spec (self : ChunkProcessor) (r : nat) :
  r ∈ valid_keys self <->
  exists k, api_keys self !! r = Some k /\ invalid k = false.
Proof.
  unfold valid_keys. rewrite valid_from_spec, Nat.sub_0_r.
  split; [intros [_ H]; exact H | intros H; split; [lia | exact H]].
Qed.

Lemma valid_from_length (ks : list APIKey) (i : nat) :
  length (valid_from i ks) <= length ks.
Proof.
  revert i. induction ks as [|k ks IH]; intros i; simpl; [lia|].
  destruct (invalid k); simpl; specialize (IH (S i)); lia.
Qed.

Lemma valid_keys_length (self : ChunkProcessor) :
  length (valid_keys self) <= length (api_keys self).
Proof. apply valid_from_length. Qed.

(** The index [get_next_api_key] computes is inside the valid list. *)
Lemma index_in_range (chunk_index : Z) (n : nat) :
  n ≠ 0 -> Z.to_nat (chunk_index mod Z.of_nat n) < n.
Proof.
  intros Hn.
  pose proof (Z.mod_pos_bound chunk_index (Z.of_nat n) ltac:(lia)). lia.
Qed.

Lemma get_next_api_key_Return (self : ChunkProcessor) (chunk_index : Z) (r : nat) :
  get_next_api_key self chunk_index = Return r <->
  valid_keys self !!
    Z.to_nat (chunk_index mod Z.of_nat (length (valid_keys self))) = Some r.
Proof.
  unfold get_next_api_key.
  destruct (valid_keys self) as [|r0 valid] eqn:Hv.
  - split; [discriminate | intros H; rewrite lookup_nil in H; discriminate].
  - set (i := Z.to_nat (chunk_index mod Z.of_nat (length (r0 :: valid)))).
    assert (Hi : i < length (r0 :: valid))
      by (apply index_in_range; simpl; lia).
    destruct (lookup_lt_is_Some_2 (r0 :: valid) i Hi) as [x Hx].
    rewrite Hx, (nth_lookup_Some _ _ r0 x Hx).
    split; intros [= ->]; reflexivity.
Qed.

Lemma get_next_api_key_Raise (self : ChunkProcessor) (chunk_index : Z) (e : exn) :
  get_next_api_key self chunk_index = Raise e <->
  valid_keys self = [] /\ e = RuntimeError "No valid API keys available.".
Proof.
  unfold get_next_api_key. destruct (valid_keys self) as [|r0 valid].
  - split; [intros [= <-]; split; reflexivity | intros [_ ->]; reflexivity].
  - split; [discriminate | intros [H _]; discriminate].
Qed.

Lemma get_next_api_key_valid (self : ChunkProcessor) (chunk_index : Z) (r : nat) :
  get_next_api_key self chunk_index = Return r ->
  exists k, api_keys self !! r = Some k /\ invalid k = false.
Proof.
  rewrite get_next_api_key_Return. intros H.
  apply valid_keys_spec. apply list_elem_of_lookup. eauto.
Qed.

Lemma mutation_keeps_invalid (self self' : ChunkProcessor) (r : nat) (k : APIKey) :
  mutation self self' -> api_keys self !! r = Some k -> invalid k = true ->
  exists k', api_keys self' !! r = Some k' /\ invalid k' = true.
Proof.
  intros [s j|s j] Hk Hinv; simpl;
    (destruct (decide (j = r)) as [->|Hne];
     [rewrite list_lookup_alter_eq, Hk; simpl; eexists; split; [reflexivity|]
     |rewrite list_lookup_alter_ne by exact Hne; eauto]).
  - reflexivity.
  - exact Hinv.
Qed.

Lemma later_keeps_invalid (self self' : ChunkProcessor) (r : nat) (k : APIKey) :
  rtc mutation self self' -> api_keys self !! r = Some k -> invalid k = true ->
  exists k', api_keys self' !! r = Some k' /\ invalid k' = true.
Proof.
  intros Hrtc. revert k. induction Hrtc as [s|s1 s2 s3 Hstep _ IH]; intros k Hk Hinv.
  - eauto.
  - destruct (mutation_keeps_invalid _ _ _ _ Hstep Hk Hinv) as (k' & Hk' & Hinv').
    eauto.
Qed.

Lemma filter_ext_in {A} (P Q : A -> Prop) `{!forall x, Decision (P x)}
      `{!forall x, Decision (Q x)} (l : list A) :
  (forall x, x ∈ l -> P x <-> Q x) -> filter P l = filter Q l.
Proof.
  induction l as [|x l IH]; intros Hext; [reflexivity|].
  assert (Hx : P x <-> Q x) by (apply Hext; left).
  assert (Hl : filter P l = filter Q l)
    by (apply IH; intros y Hy; apply Hext; right; exact Hy).
  rewrite !filter_cons, Hl.
  destruct (decide (P x)) as [HP|HP], (decide (Q x)) as [HQ|HQ];
    try reflexivity; exfalso; tauto.
Qed.

(** The valid keys are the positions of the pool, in the order of the
    pool, whose key has [invalid = False]: the list comprehension of
    [get_next_api_key], read on positions. *)
Lemma valid_from_filter (ks : list APIKey) (i : nat) :
  valid_from i ks
  = filter (fun r => invalid <$> ks !! (r - i) = Some false) (seq i (length ks)).
Proof.
  revert i. induction ks as [|k ks IH]; intros i; [reflexivity|].
  cbn [valid_from length seq]. rewrite filter_cons, Nat.sub_diag.
  assert (Hrest : filter (fun r => invalid <$> (k :: ks) !! (r - i) = Some false)
                         (seq (S i) (length ks))
                  = valid_from (S i) ks).
  { rewrite IH. apply filter_ext_in. intros r Hr. apply elem_of_seq in Hr.
    replace (r - i) with (S (r - S i)) by lia. reflexivity. }
  rewrite Hrest. cbn [lookup list_lookup fmap option_fmap option_map].
  destruct (invalid k); destruct (decide _) as [Hd|Hd];
    try reflexivity; try discriminate Hd; exfalso; apply Hd; reflexivity.
Qed.

Lemma valid_from_nil (ks : list APIKey) (i : nat) :
  valid_from i ks = [] <-> Forall (fun k => invalid k = true) ks.
Proof.
  revert i. induction ks as [|k ks IH]; intros i; cbn [valid_from].
  - split; [constructor | reflexivity].
  - destruct (invalid k) eqn:Hk.
    + rewrite IH. split; [intros H; constructor; assumption|].
      intros H. apply Forall_cons in H as [_ H']. exact H'.
    + split; [discriminate|]. intros H. apply Forall_cons in H as [H' _].
      congruence.
Qed.

(** Every key that is not invalid is chosen for some index. *)
Lemma valid_key_selectable (self : ChunkProcessor) (r : nat) (k : APIKey) :
  api_keys self !! r = Some k -> invalid k = false ->
  exists chunk_index, get_next_api_key self chunk_index = Return r.
Proof.
  intros Hk Hinv.
  assert (Hin : r ∈ valid_keys self) by (apply valid_keys_spec; eauto).
  apply list_elem_of_lookup in Hin as [p Hp].
  exists (Z.of_nat p). apply get_next_api_key_Return.
  apply lookup_lt_Some in Hp as Hlt.
  rewrite Z.mod_small by lia. rewrite Nat2Z.id. exact Hp.
Qed.

(** C3.  [get_next_api_key(chunk_index)] returns the key at position
    [chunk_index mod len(valid_keys)] of the keys that are not invalid at
    the time of the call, so that the answer depends on the valid keys
    and the index only; it raises exactly when no key is valid; and once
    a key has been marked invalid, no later call returns it, whatever
    happened to the pool in between.  The valid keys are exactly the keys
    of the pool whose flag [invalid] is not set, in the order of the pool:
    the call raises exactly when every key of the pool has its flag set,
    and every key whose flag is not set is returned for some index. *)
Theorem get_next_api_key_spec (self : ChunkProcessor) (chunk_index : Z) :
  (forall r,
      get_next_api_key self chunk_index = Return r <->
      valid_keys self !!
        Z.to_nat (chunk_index mod Z.of_nat (length (valid_keys self))) = Some r)
  /\ (forall other,
        valid_keys other = valid_keys self ->
        get_next_api_key other chunk_index = get_next_api_key self chunk_index)
  /\ ((exists e, get_next_api_key self chunk_index = Raise e) <->
      valid_keys self = [])
  /\ (valid_keys self = [] ->
      get_next_api_key self chunk_index
      = Raise (RuntimeError "No valid API keys available."))
  /\ (forall r,
        get_next_api_key self chunk_index = Return r ->
        exists k, api_keys self !! r = Some k /\ invalid k = false)
  /\ (forall before r,
        rtc mutation (set_invalid before r) self ->
        get_next_api_key self chunk_index ≠ Return r)
  /\ valid_keys self
     = filter (fun r => invalid <$> api_keys self !! r = Some false)
              (seq 0 (length (api_keys self)))
  /\ (forall r,
        r ∈ valid_keys self <->
        exists k, api_keys self !! r = Some k /\ invalid k = false)
  /\ (forall r,
        get_next_api_key self chunk_index = Return r <->
        filter (fun r => invalid <$> api_keys self !! r = Some false)
               (seq 0 (length (api_keys self)))
        !! Z.to_nat
             (chunk_index
              mod Z.of_nat
                    (length (filter (fun r => invalid <$> api_keys self !! r
                                              = Some false)
                                    (seq 0 (length (api_keys self))))))
        = Some r)
  /\ ((exists e, get_next_api_key self chunk_index = Raise e) <->
      Forall (fun k => invalid k = true) (api_keys self))
  /\ (forall r k,
        api_keys self !! r = Some k -> invalid k = false ->
        exists chunk_index', get_next_api_key self chunk_index' = Return r).
Proof.
  assert (Hfilter : valid_keys self
                    = filter (fun r => invalid <$> api_keys self !! r = Some false)
                             (seq 0 (length (api_keys self)))).
  { unfold valid_keys. rewrite valid_from_filter. apply filter_ext_in.
    intros r _. rewrite Nat.sub_0_r. reflexivity. }
  split; [|split; [|split; [|split; [|split; [|split; [|split;
    [|split; [|split; [|split]]]]]]]]].
  - intros r. apply get_next_api_key_Return.
  - intros other Hsame. unfold get_next_api_key. rewrite Hsame. reflexivity.
  - split.
    + intros [e He]. apply get_next_api_key_Raise in He as [Hv _]. exact Hv.
    + intros Hv. eexists. apply get_next_api_key_Raise. split; [exact Hv|reflexivity].
  - intros Hv. apply get_next_api_key_Raise. split; [exact Hv|reflexivity].
  - intros r. apply get_next_api_key_valid.
  - intros before r Hlater Hret.
    apply get_next_api_key_valid in Hret as (k & Hk & Hvalid).
    assert (Hr : r < length (api_keys before)).
    { destruct (Nat.lt_ge_cases r (length (api_keys before))) as [Hlt|Hge];
        [exact Hlt|]. exfalso.
      assert (Hlen : forall s s', rtc mutation s s' ->
                                  length (api_keys s') = length (api_keys s)).
      { clear. intros s s' H. induction H as [|s1 s2 s3 Hstep _ IH]; [reflexivity|].
        rewrite IH. destruct Hstep; simpl; apply length_alter. }
      apply Hlen in Hlater. simpl in Hlater. rewrite length_alter in Hlater.
      apply lookup_lt_Some in Hk. lia. }
    destruct (lookup_lt_is_Some_2 _ _ Hr) as [k0 Hk0].
    assert (Hm : api_keys (set_invalid before r) !! r = Some (mark k0)).
    { simpl. rewrite list_lookup_alter_eq, Hk0. reflexivity. }
    destruct (later_keeps_invalid _ _ _ _ Hlater Hm eq_refl) as (k' & Hk' & Hinv).
    congruence.
  - exact Hfilter.
  - intros r. apply valid_keys_spec.
  - intros r. rewrite <- Hfilter. apply get_next_api_key_Return.
  - split.
    + intros [e He]. apply get_next_api_key_Raise in He as [Hv _].
      apply (valid_from_nil (api_keys self) 0). exact Hv.
    + intros Hall. eexists. apply get_next_api_key_Raise.
      split; [|reflexivity]. apply (valid_from_nil (api_keys self) 0). exact Hall.
  - intros r k. apply valid_key_selectable.
Qed.

End Pool.

(** ** The chunk processor *)

Section Processor.

Import Main.

Variable w : World.

Lemma valid_from_use (ks : list APIKey) (i j : nat) :
  valid_from i (alter use j ks) = valid_from i ks.
Proof.
  revert i j. induction ks as [|k ks IH]; intros i j; [reflexivity|].
  destruct j as [|j]; simpl; [reflexivity|].
  specialize (IH (S i) j). unfold alter in IH. rewrite IH. reflexivity.
Qed.

Lemma valid_keys_add_used (self : ChunkProcessor) (r : nat) :
  valid_keys (add_used self r) = valid_keys self.
Proof. apply valid_from_use. Qed.

Lemma valid_from_mark (ks : list APIKey) (i j : nat) (k : APIKey) :
  ks !! j = Some k -> invalid k = false ->
  S (length (valid_from i (alter mark j ks))) = length (valid_from i ks).
Proof.
  revert i j. induction ks as [|k0 ks IH]; intros i j Hk Hinv; [discriminate|].
  destruct j as [|j]; simpl in *.
  - injection Hk as ->. rewrite Hinv. reflexivity.
  - specialize (IH (S i) j Hk Hinv). unfold alter in IH.
    destruct (invalid k0); simpl; rewrite IH; reflexivity.
Qed.

(** Marking the key [get_next_api_key] has just returned leaves one
    valid key fewer. *)
Lemma set_invalid_shrinks (self : ChunkProcessor) (chunk_index : Z) (r : nat) :
  get_next_api_key self chunk_index = Return r ->
  S (length (valid_keys (set_invalid self r))) = length (valid_keys self).
Proof.
  intros H. apply get_next_api_key_valid in H as (k & Hk & Hinv).
  exact (valid_from_mark _ 0 _ _ Hk Hinv).
Qed.

(** [translate_text] makes exactly one request; when it raises, the
    processor is the one it was given. *)
Lemma translate_text_cases (self : ChunkProcessor) (t : nat)
      (text target_lang : string) (api_key : nat) :
  exists self' r,
    translate_text w self t text target_lang api_key = (self', S t, r) /\
    (self' = self \/ self' = add_used self api_key) /\
    (forall e, r = Raise e -> self' = self \/ ~ exists c m, e = HTTPError c m).
Proof.
  unfold translate_text.
  destruct (post w t _) as [msg|code reason body].
  - eexists _, _. split; [reflexivity|]. split; [left; reflexivity|].
    intros e _. left. reflexivity.
  - destruct (raise_for_status code reason) as [[]|e0].
    + eexists _, _. split; [reflexivity|]. split; [right; reflexivity|].
      intros e He. right. intros (c & m & ->).
      destruct body as [|[c'|]]; simpl in He; discriminate.
    + eexists _, _. split; [reflexivity|]. split; [left; reflexivity|].
      intros e _. left. reflexivity.
Qed.

Lemma translate_text_401 (self : ChunkProcessor) (t : nat)
      (text target_lang : string) (api_key : nat) :
  (forall t' req, exists reason body, post w t' req = Response 401 reason body) ->
  exists reason,
    translate_text w self t text target_lang api_key
    = (self, S t, Raise (HTTPError 401 reason)).
Proof.
  intros H401. unfold translate_text.
  destruct (H401 t {| req_url := TRANSLATION_URL;
                      req_authorization := "Bearer " +:+ key_text self api_key;
                      req_model := MODEL_NAME;
                      req_messages :=
                        [("system", "Translate the following text to "
                                    +:+ target_lang +:+ ":");
                         ("user", text)] |}) as (reason & body & ->).
  exists reason. reflexivity.
Qed.

Lemma process_chunk_rec_returns (chunk : list string) (chunk_index : Z)
      (fuel : nat) :
  forall (self : ChunkProcessor) (t : nat),
    length (valid_keys self) < fuel ->
    exists self' t' r,
      process_chunk_rec fuel w self t chunk chunk_index
      = Some (self', t', (chunk_index, r)) /\
      well_formed chunk r /\
      length (api_keys self') = length (api_keys self) /\
      length (valid_keys self') <= length (valid_keys self) /\
      t <= t' /\
      t' + length (valid_keys self') <= S t + length (valid_keys self).
Proof.
  induction fuel as [|fuel IH]; intros self t Hfuel; [lia|].
  simpl.
  destruct (get_next_api_key self chunk_index) as [api_key|e] eqn:Hkey.
  2:{ exists self, t, (error_result e). repeat split; try lia.
      right. eexists. reflexivity. }
  destruct (detect w t (join NL chunk)) as [source_lang|e].
  2:{ exists self, t, (error_result e). repeat split; try lia.
      right. eexists. reflexivity. }
  destruct (translate_text_cases self t (join NL chunk)
              (if String.eqb source_lang "ne" then "English" else "Nepali")
              api_key) as (self' & r & -> & Hself & Hraise).
  assert (Hlen : length (api_keys self') = length (api_keys self))
    by (destruct Hself as [->| ->]; [reflexivity | apply length_alter]).
  assert (Hval : valid_keys self' = valid_keys self)
    by (destruct Hself as [->| ->]; [reflexivity | apply valid_keys_add_used]).
  assert (Herr : forall e,
             exists self1 t1 r1,
               Some (self', S t, (chunk_index, error_result e))
               = Some (self1, t1, (chunk_index, r1)) /\
               well_formed chunk r1 /\
               length (api_keys self1) = length (api_keys self) /\
               length (valid_keys self1) <= length (valid_keys self) /\
               t <= t1 /\
               t1 + length (valid_keys self1) <= S t + length (valid_keys self)).
  { intros e. exists self', (S t), (error_result e). rewrite Hval, Hlen.
    repeat split; try lia. right. eexists. reflexivity. }
  destruct r as [translated|e].
  { exists self', (S t), (success_result (join NL chunk) translated).
    rewrite Hval, Hlen. repeat split; try lia. left. eexists. reflexivity. }
  destruct e as [ |m|m|m|m|code m|m|m| ]; try apply Herr.
  destruct (Z.eqb_spec code 401) as [->|Hne]; [|apply Herr].
  destruct (Hraise _ eq_refl) as [->|Hno]; [|exfalso; apply Hno; eauto].
  pose proof (set_invalid_shrinks _ _ _ Hkey) as Hshrink.
  destruct (IH (set_invalid self api_key) (S t) ltac:(lia))
    as (self1 & t1 & r1 & -> & Hwf & Hl1 & Hv1 & Ht1 & Hb1).
  exists self1, t1, r1. simpl in Hl1. rewrite length_alter in Hl1.
  repeat split; try assumption; lia.
Qed.

(** Fuel beyond the number of valid keys changes nothing. *)
Lemma process_chunk_rec_more_fuel (chunk : list string) (chunk_index : Z)
      (fuel : nat) :
  forall (self : ChunkProcessor) (t : nat) x,
    process_chunk_rec fuel w self t chunk chunk_index = Some x ->
    process_chunk_rec (S fuel) w self t chunk chunk_index = Some x.
Proof.
  induction fuel as [|fuel IH]; intros self t x H; [discriminate|].
  cbn [process_chunk_rec] in *.
  destruct (get_next_api_key self chunk_index) as [api_key|e]; [|exact H].
  destruct (detect w t (join NL chunk)) as [source_lang|e]; [|exact H].
  destruct (translate_text w self t _ _ api_key) as [[self' t'] [translated|e]];
    [exact H|].
  destruct e; try exact H.
  destruct (Z.eqb_spec status_code 401); [|exact H].
  apply IH. exact H.
Qed.

Lemma process_chunk_rec_401 (chunk : list string) (chunk_index : Z) (fuel : nat) :
  (forall t' req, exists reason body, post w t' req = Response 401 reason body) ->
  forall (self : ChunkProcessor) (t : nat),
    length (valid_keys self) < fuel ->
    exists self' t' e,
      process_chunk_rec fuel w self t chunk chunk_index
      = Some (self', t', (chunk_index, error_result e)) /\
      t <= t' /\
      length (valid_keys self') + (t' - t) = length (valid_keys self) /\
      ((forall t'' s, exists l, detect w t'' s = Return l) ->
       valid_keys self' = [] /\
       e = RuntimeError "No valid API keys available.").
Proof.
  intros H401. induction fuel as [|fuel IH]; intros self t Hfuel; [lia|].
  simpl.
  destruct (get_next_api_key self chunk_index) as [api_key|e] eqn:Hkey.
  2:{ apply get_next_api_key_Raise in Hkey as [Hnil ->].
      exists self, t, (RuntimeError "No valid API keys available.").
      split; [reflexivity|]. split; [lia|]. split; [lia|].
      intros _. split; [exact Hnil | reflexivity]. }
  destruct (detect w t (join NL chunk)) as [source_lang|e] eqn:Hdet.
  2:{ exists self, t, e.
      split; [reflexivity|]. split; [lia|]. split; [lia|].
      intros Hd. destruct (Hd t (join NL chunk)) as [l Hl]. congruence. }
  destruct (translate_text_401 self t (join NL chunk)
              (if String.eqb source_lang "ne" then "English" else "Nepali")
              api_key H401) as [reason ->].
  change (401 =? 401)%Z with true. cbv iota.
  pose proof (set_invalid_shrinks _ _ _ Hkey) as Hshrink.
  destruct (IH (set_invalid self api_key) (S t) ltac:(lia))
    as (self1 & t1 & e1 & -> & Ht1 & Hcount & Hend).
  exists self1, t1, e1.
  split; [reflexivity|]. split; [lia|]. split; [lia|]. exact Hend.
Qed.

(** C10.  [process_chunk] returns, whatever the world answers and
    whatever the chunk and the index: it gives back the index it was
    called with next to a result whose status is ["success"] or
    ["error"]; nothing raised on the way reaches the caller.  A result
    with status ["error"] holds the empty string as original and as
    translated text, so the text of the chunk is not in it; a successful
    one holds the pages joined by line feeds. *)
Theorem process_chunk_total (self : ChunkProcessor) (t : nat)
        (chunk : list string) (chunk_index : Z) :
  exists self' t' r,
    process_chunk w self t chunk chunk_index
    = Some (self', t', (chunk_index, r)) /\
    (status r = "success" \/ status r = "error") /\
    (status r = "error" ->
     original r = "" /\ translated r = "" /\ is_Some (error r)) /\
    (status r = "success" -> original r = join NL chunk).
Proof.
  pose proof (valid_keys_length self) as Hle.
  destruct (process_chunk_rec_returns chunk chunk_index
              (S (length (api_keys self))) self t ltac:(lia))
    as (self' & t' & r & Hrun & Hwf & _).
  exists self', t', r. split; [exact Hrun|].
  destruct Hwf as [[translated ->]|[e ->]]; simpl.
  - split; [left; reflexivity|]. split; [discriminate | reflexivity].
  - split; [right; reflexivity|]. split; [|discriminate].
    intros _. repeat split. eexists. reflexivity.
Qed.

(** C4.  When every request is answered 401, [process_chunk] returns
    after at most as many requests as there are keys in the pool: each
    request costs the valid keys exactly one key, the one just used, so
    the call ends with an error result; when the detector answers, it
    ends with no valid key left and the error of the exhausted pool. *)
Theorem process_chunk_auth_failures_terminate (self : ChunkProcessor) (t : nat)
        (chunk : list string) (chunk_index : Z) :
  (forall t' req, exists reason body, post w t' req = Response 401 reason body) ->
  exists self' t' e,
    process_chunk w self t chunk chunk_index
    = Some (self', t', (chunk_index, error_result e)) /\
    t <= t' /\
    length (valid_keys self') + (t' - t) = length (valid_keys self) /\
    t' - t <= length (api_keys self) /\
    ((forall t'' s, exists l, detect w t'' s = Return l) ->
     valid_keys self' = [] /\
     t' - t = length (valid_keys self) /\
     e = RuntimeError "No valid API keys available.").
Proof.
  intros H401. pose proof (valid_keys_length self) as Hle.
  destruct (process_chunk_rec_401 chunk chunk_index
              (S (length (api_keys self))) H401 self t ltac:(lia))
    as (self' & t' & e & Hrun & Ht & Hcount & Hend).
  exists self', t', e.
  split; [exact Hrun|]. split; [exact Ht|]. split; [exact Hcount|].
  split; [lia|]. intros Hdet. destruct (Hend Hdet) as [Hnil ->].
  rewrite Hnil in Hcount. simpl in Hcount.
  split; [exact Hnil|]. split; [lia | reflexivity].
Qed.

(** An HTTP error other than 401 ends the chunk at once: the key stays
    valid and nothing is tried again. *)
Lemma http_error_fails_chunk (self : ChunkProcessor) (t : nat)
      (chunk : list string) (chunk_index : Z) (lang : string)
      (code : Z) (reason : string) (body : Body) :
  valid_keys self ≠ [] ->
  detect w t (join NL chunk) = Return lang ->
  (forall req, post w t req = Response code reason body) ->
  (400 <= code < 600)%Z -> code ≠ 401%Z ->
  process_chunk w self t chunk chunk_index
  = Some (self, S t, (chunk_index, error_result (HTTPError code reason))).
Proof.
  intros Hvalid Hdet Hpost Hcode Hne. unfold process_chunk.
  cbn [process_chunk_rec].
  destruct (get_next_api_key self chunk_index) as [api_key|e] eqn:Hkey.
  2:{ apply get_next_api_key_Raise in Hkey as [Hnil _]. contradiction. }
  rewrite Hdet. unfold translate_text. rewrite Hpost. unfold raise_for_status.
  destruct (Z.leb_spec 400 code); [|lia].
  destruct (Z.ltb_spec code 600); [|lia]. cbn [andb].
  destruct (Z.eqb_spec code 401); [contradiction | reflexivity].
Qed.

(** A failure of the detector is the failure of the chunk. *)
Lemma detect_failure_fails_chunk (self : ChunkProcessor) (t : nat)
      (chunk : list string) (chunk_index : Z) (e : exn) :
  valid_keys self ≠ [] ->
  detect w t (join NL chunk) = Raise e ->
  process_chunk w self t chunk chunk_index
  = Some (self, t, (chunk_index, error_result e)).
Proof.
  intros Hvalid Hdet. unfold process_chunk. simpl.
  destruct (get_next_api_key self chunk_index) as [api_key|e'] eqn:Hkey.
  - rewrite Hdet. reflexivity.
  - apply get_next_api_key_Raise in Hkey as [Hnil _]. contradiction.
Qed.

End Processor.

Lemma process_chunk_auth_failures_terminate_witness :
  exists self' t' e,
    Main.process_chunk unauthorized (Main.init unauthorized) 0 ["page"] 0
    = Some (self', t', (0%Z, Main.error_result e)) /\ t' = 11.
Proof.
  destruct (process_chunk_auth_failures_terminate unauthorized
              (Main.init unauthorized) 0 ["page"] 0)
    as (self' & t' & e & Hrun & _ & _ & _ & Hend).
  - intros t' req. exists "Unauthorized", NotJson. reflexivity.
  - exists self', t', e. split; [exact Hrun|].
    destruct Hend as (_ & Hcount & _).
    + intros t'' s. exists "en". reflexivity.
    + rewrite Nat.sub_0_r in Hcount. exact Hcount.
Defined.

(** C6, on the code.  With a detector that raises, [process_chunk] of
    [main.py] gives the chunk an error result although the request would
    have succeeded, where [detect_language] of [main2.py] answers
    ["unknown"]. *)
Theorem detection_failure_fails_chunk_in_main :
  Main.process_chunk undetectable (Main.init undetectable) 0 ["12345"] 0
  = Some (Main.init undetectable, 0,
          (0%Z, Main.error_result (LangDetectException "No features in text.")))
  /\ Main2.detect_language undetectable 0 "12345" = "unknown".
Proof. split; reflexivity. Qed.

(** ** Collecting and merging the results *)

Section Dispatcher.

Import Main.

Lemma collect_list_to_map (arrivals : list (Z * ChunkResult)) :
  collect arrivals = list_to_map (reverse arrivals).
Proof.
  unfold collect, list_to_map, reverse. rewrite <- rev_alt.
  rewrite (fold_left_rev_right (fun p : Z * ChunkResult => <[p.1:=p.2]>)).
  reflexivity.
Qed.

Lemma collect_lookup (arrivals : list (Z * ChunkResult)) (k : Z) (r : ChunkResult) :
  NoDup arrivals.*1 ->
  collect arrivals !! k = Some r <-> (k, r) ∈ arrivals.
Proof.
  intros Hnd. rewrite collect_list_to_map, <- elem_of_list_to_map.
  - apply elem_of_reverse.
  - rewrite reverse_Permutation. exact Hnd.
Qed.

Lemma indexed_keys (rs : list ChunkResult) :
  (indexed rs).*1 = Z.of_nat <$> seq 0 (length rs).
Proof.
  unfold indexed. rewrite fmap_imap.
  exact (imap_seq_0 rs Z.of_nat).
Qed.

Lemma NoDup_indices (n : nat) : NoDup (Z.of_nat <$> seq 0 n).
Proof.
  apply NoDup_fmap_2; [intros a b; lia | apply NoDup_seq].
Qed.

Lemma indexed_elem (rs : list ChunkResult) (k : Z) (r : ChunkResult) :
  (k, r) ∈ indexed rs <-> exists i, k = Z.of_nat i /\ rs !! i = Some r.
Proof.
  unfold indexed. rewrite elem_of_lookup_imap. split.
  - intros (i & y & [= -> ->] & Hy). eauto.
  - intros (i & -> & Hi). eauto.
Qed.

(** Whatever the order of arrival, the dict holds the result of chunk
    [i] under [i] and nothing else. *)
Lemma collect_indexed (rs : list ChunkResult) (arrivals : list (Z * ChunkResult)) :
  arrivals ≡ₚ indexed rs ->
  forall k r, collect arrivals !! k = Some r <->
              exists i, k = Z.of_nat i /\ rs !! i = Some r.
Proof.
  intros Hperm k r.
  rewrite collect_lookup.
  - rewrite Hperm. apply indexed_elem.
  - rewrite Hperm, indexed_keys. apply NoDup_indices.
Qed.

Lemma merge_step_found (results : gmap Z ChunkResult) (i : nat)
      (r : ChunkResult) (mo mt : list string) :
  results !! Z.of_nat i = Some r ->
  merge_step results (Return (mo, mt)) i
  = if String.eqb (status r) "success"
    then Return ((mo ++ [section_of i (original r)])%list,
                 (mt ++ [section_of i (translated r)])%list)
    else Return (mo, mt).
Proof.
  intros H. unfold merge_step. simpl_bind.
  rewrite H. reflexivity.
Qed.

Lemma merge_loop (results : gmap Z ChunkResult) (rs : list ChunkResult) :
  forall (i : nat) (mo mt : list string),
    (forall j r, rs !! j = Some r -> results !! Z.of_nat (i + j) = Some r) ->
    fold_left (merge_step results) (seq i (length rs)) (Return (mo, mt))
    = Return ((mo ++ sections_from original i rs)%list,
              (mt ++ sections_from translated i rs)%list).
Proof.
  induction rs as [|r rs IH]; intros i mo mt Hres;
    cbn [length seq fold_left sections_from].
  - rewrite !app_nil_r. reflexivity.
  - pose proof (Hres 0 r eq_refl) as H0. rewrite Nat.add_0_r in H0.
    rewrite (merge_step_found results i r mo mt H0).
    assert (Hres' : forall j r', rs !! j = Some r' ->
                                 results !! Z.of_nat (S i + j) = Some r').
    { intros j r' Hj. specialize (Hres (S j) r' Hj).
      replace (S i + j) with (i + S j) by lia. exact Hres. }
    destruct (String.eqb (status r) "success").
    + rewrite (IH (S i) _ _ Hres'), <- !app_assoc. reflexivity.
    + apply (IH (S i) _ _ Hres').
Qed.

Lemma merge_of_results (results : gmap Z ChunkResult) (rs : list ChunkResult) :
  (forall j r, rs !! j = Some r -> results !! Z.of_nat j = Some r) ->
  merge (length rs) results = Return (merged_of rs).
Proof.
  intros Hres. unfold merge.
  rewrite (merge_loop results rs 0 [] [] Hres). reflexivity.
Qed.


End Dispatcher.


(** ** The whole run *)

Section Run.

Import Main.

Variable w : World.

Lemma create_chunks_nonempty (self : ChunkProcessor) (pages : list string)
      (chunks : list (list string)) :
  api_keys self ≠ [] -> pages ≠ [] ->
  create_chunks self pages = Return chunks -> chunks ≠ [].
Proof.
  intros Hkeys Hpages Hcc.
  destruct (create_chunks_groups self pages Hpages Hkeys)
    as (n & nc & ppc & k & _ & _ & _ & Hk & Hgroups).
  rewrite Hgroups in Hcc. apply Return_inj in Hcc as <-.
  assert (Hlen : length pages ≠ 0) by (destruct pages; simpl; congruence).
  pose proof (ceil_div_pos _ _ _ Hk Hlen) as Hk0.
  intros Hnil. apply (f_equal length) in Hnil.
  rewrite groups_length in Hnil. simpl in Hnil. lia.
Qed.

(** The tasks all return, each with its own index; [P] is anything
    known of the results of [process_chunk]. *)
Lemma run_tasks_returns (P : ChunkResult -> Prop) (fuel : nat)
      (chunks : list (list string)) :
  (forall self t chunk chunk_index self' t' r,
      length (api_keys self) < fuel ->
      process_chunk_rec fuel w self t chunk chunk_index
      = Some (self', t', (chunk_index, r)) -> P r) ->
  forall (schedule : list nat) (self : ChunkProcessor) (t : nat),
    length (api_keys self) < fuel ->
    Forall (fun i => i < length chunks) schedule ->
    exists self' t' arrivals,
      run_tasks fuel w chunks schedule self t = Some (self', t', arrivals) /\
      arrivals.*1 = Z.of_nat <$> schedule /\
      Forall (fun a => P a.2) arrivals.
Proof.
  intros HP. induction schedule as [|i schedule IH]; intros self t Hfuel Hin.
  - exists self, t, []. repeat split. constructor.
  - apply Forall_cons in Hin as [Hi Hin]. cbn [run_tasks].
    destruct (lookup_lt_is_Some_2 chunks i Hi) as [chunk ->].
    pose proof (valid_keys_length self) as Hvalid.
    destruct (process_chunk_rec_returns w chunk (Z.of_nat i) fuel self t
                ltac:(lia))
      as (self1 & t1 & r & Hrun & _ & Hlen & _).
    rewrite Hrun.
    destruct (IH self1 t1 ltac:(lia) Hin)
      as (self2 & t2 & arrivals & -> & Hkeys & HP2).
    exists self2, t2, ((Z.of_nat i, r) :: arrivals).
    split; [reflexivity|]. split; [simpl; f_equal; exact Hkeys|].
    constructor; [|exact HP2]. exact (HP _ _ _ _ _ _ _ Hfuel Hrun).
Qed.

Lemma sections_from_errors (field : ChunkResult -> string) (rs : list ChunkResult) :
  Forall (fun r => status r = "error") rs ->
  forall i, sections_from field i rs = [].
Proof.
  induction 1 as [|r rs Hr _ IH]; intros i; simpl; [reflexivity|].
  rewrite Hr. simpl. apply IH.
Qed.

(** Once there are pages, the run gives merged documents, whatever the
    chunks met: nothing a chunk raises makes the run fail. *)
Lemma process_pages_completes (P : ChunkResult -> Prop) (fuel : nat)
      (schedule : list nat) (pages : list string) (chunks : list (list string)) :
  (forall self t chunk chunk_index self' t' r,
      length (api_keys self) < fuel ->
      process_chunk_rec fuel w self t chunk chunk_index
      = Some (self', t', (chunk_index, r)) -> P r) ->
  11 < fuel ->
  create_chunks (init w) pages = Return chunks ->
  schedule ≡ₚ seq 0 (length chunks) ->
  exists rs,
    length rs = length chunks /\ Forall P rs /\
    process_pages fuel w schedule pages = Some (Return (Some (merged_of rs))).
Proof.
  intros HP Hfuel Hcc Hperm.
  assert (Hpages : pages ≠ []).
  { intros ->. rewrite create_chunks_empty_raises in Hcc. discriminate. }
  pose proof (create_chunks_nonempty _ _ _ (proj2 (init_api_keys w)) Hpages Hcc)
    as Hchunks.
  assert (Hin : Forall (fun i => i < length chunks) schedule).
  { apply Forall_forall. intros i Hi. rewrite Hperm in Hi.
    apply elem_of_seq in Hi. lia. }
  destruct (run_tasks_returns P fuel chunks HP schedule (init w) 0
              ltac:(simpl; lia) Hin)
    as (self' & t' & arrivals & Hrun & Hkeys & HParr).
  assert (Hnd : NoDup arrivals.*1).
  { rewrite Hkeys, Hperm. apply NoDup_indices. }
  assert (Hsome : forall j, j < length chunks ->
                            exists r, collect arrivals !! Z.of_nat j = Some r /\ P r).
  { intros j Hj.
    assert (Hel : Z.of_nat j ∈ arrivals.*1).
    { rewrite Hkeys, Hperm. apply list_elem_of_fmap_2, elem_of_seq. lia. }
    apply list_elem_of_fmap in Hel as ([k r] & Hk & Hel). simpl in Hk. subst k.
    exists r. split; [apply collect_lookup; assumption|].
    rewrite Forall_forall in HParr. exact (HParr _ Hel). }
  set (dummy := error_result RetryError).
  set (rs := (fun j => default dummy (collect arrivals !! Z.of_nat j))
               <$> seq 0 (length chunks)).
  assert (Hlen : length rs = length chunks)
    by (unfold rs; rewrite length_fmap, length_seq; reflexivity).
  assert (Hrs : forall j r, rs !! j = Some r ->
                            collect arrivals !! Z.of_nat j = Some r /\ P r).
  { intros j r Hj. unfold rs in Hj. rewrite list_lookup_fmap in Hj.
    destruct (seq 0 (length chunks) !! j) as [j'|] eqn:Hseq; [|discriminate].
    apply lookup_seq in Hseq as [-> Hlt]. simpl in Hj.
    destruct (Hsome j Hlt) as (r' & Hr' & HPr').
    rewrite Hr' in Hj. simpl in Hj. injection Hj as <-. split; assumption. }
  exists rs. split; [exact Hlen|]. split.
  - apply Forall_forall. intros r Hr.
    apply list_elem_of_lookup in Hr as [j Hj]. exact (proj2 (Hrs j r Hj)).
  - unfold process_pages. destruct pages as [|page pages']; [contradiction|].
    rewrite Hcc.
    destruct (Nat.eqb_spec (length chunks) 0) as [H0|_].
    { destruct chunks; [contradiction | discriminate]. }
    rewrite Hrun, <- Hlen.
    rewrite (merge_of_results (collect arrivals) rs
               (fun j r Hj => proj1 (Hrs j r Hj))).
    reflexivity.
Qed.

Lemma process_document_completes (fuel : nat) (schedule : list nat)
      (file_content : string) (texts : list string)
      (chunks : list (list string)) :
  11 < fuel ->
  read_pdf w file_content = Return texts ->
  create_chunks (init w)
    (List.filter (fun text => negb (strip_is_empty text)) texts) = Return chunks ->
  schedule ≡ₚ seq 0 (length chunks) ->
  exists rs,
    length rs = length chunks /\
    process_document fuel w schedule file_content = Some (Some (merged_of rs)).
Proof.
  intros Hfuel Hread Hcc Hperm.
  destruct (process_pages_completes (fun _ => True) fuel schedule _ chunks
              (fun _ _ _ _ _ _ _ _ _ => I) Hfuel Hcc Hperm)
    as (rs & Hlen & _ & Hrun).
  exists rs. split; [exact Hlen|].
  unfold process_document. rewrite Hread, Hrun. reflexivity.
Qed.

(** C5, as the code has it.  When every request is answered 401, so
    that the pool is exhausted and every chunk ends on the error raised
    for want of a valid key, the run does not fail: [process_document]
    returns its two merged documents, here both empty since no chunk
    succeeded.  The error of the exhausted pool is one more error result
    of a chunk. *)
Theorem pool_exhaustion_is_absorbed (fuel : nat) (schedule : list nat)
        (file_content : string) (texts : list string)
        (chunks : list (list string)) :
  (forall t req, exists reason body, post w t req = Response 401 reason body) ->
  11 < fuel ->
  read_pdf w file_content = Return texts ->
  create_chunks (init w)
    (List.filter (fun text => negb (strip_is_empty text)) texts) = Return chunks ->
  schedule ≡ₚ seq 0 (length chunks) ->
  (forall self t chunk chunk_index,
      valid_keys self = [] ->
      process_chunk w self t chunk chunk_index
      = Some (self, t,
              (chunk_index,
               error_result (RuntimeError "No valid API keys available."))))
  /\ process_document fuel w schedule file_content
     = Some (Some {| merged_original := ""; merged_translated := "" |}).
Proof.
  intros H401 Hfuel Hread Hcc Hperm. split.
  - intros self t chunk chunk_index Hnil. unfold process_chunk.
    cbn [process_chunk_rec]. unfold get_next_api_key. rewrite Hnil. reflexivity.
  - destruct (process_pages_completes (fun r => status r = "error")
                fuel schedule
                (List.filter (fun text => negb (strip_is_empty text)) texts)
                chunks) as (rs & Hlen & Herr & Hrun);
      try assumption.
    + intros self t chunk chunk_index self' t' r Hf Hr.
      pose proof (valid_keys_length self) as Hvalid.
      destruct (process_chunk_rec_401 w chunk chunk_index fuel H401 self t
                  ltac:(lia)) as (self1 & t1 & e & Hrun & _).
      rewrite Hrun in Hr. injection Hr as _ _ <-. reflexivity.
    + unfold process_document. rewrite Hread, Hrun.
      unfold merged_of. rewrite !(sections_from_errors _ rs Herr). reflexivity.
Qed.

(** C2, as the code has it.  [create_chunks] raises on an empty page
    sequence; [process_document] does not get there, it returns [None]
    as soon as no page has text. *)
Theorem create_chunks_empty (self : ChunkProcessor) (fuel : nat)
        (schedule : list nat) :
  create_chunks self [] = Raise ZeroDivisionError
  /\ process_pages fuel w schedule [] = Some (Return None).
Proof. split; [apply create_chunks_empty_raises | reflexivity]. Qed.

End Run.

Lemma pool_exhaustion_is_absorbed_witness :
  Main.process_document 12 unauthorized [0] ""
  = Some (Some {| Main.merged_original := ""; Main.merged_translated := "" |}).
Proof.
  apply (pool_exhaustion_is_absorbed unauthorized 12 [0] "" ["page"] [["page"]]).
  - intros t req. exists "Unauthorized", NotJson. reflexivity.
  - lia.
  - reflexivity.
  - reflexivity.
  - reflexivity.
Defined.

(** C5 as claimed fails: with every key refused the pool is exhausted,
    the chunk ends on the error of the exhausted pool, and the run still
    returns its documents instead of failing. *)
Lemma exhaustion_is_fatal_counterexample :
  (exists self',
      Main.process_chunk unauthorized (Main.init unauthorized) 0 ["page"] 0
      = Some (self', 11,
              (0%Z, Main.error_result (RuntimeError "No valid API keys available.")))
      /\ Main.valid_keys self' = [])
  /\ Main.process_document 12 unauthorized [0] "" ≠ Some None
  /\ exists merged,
      Main.process_document 12 unauthorized [0] "" = Some (Some merged).
Proof.
  split; [eexists; split; reflexivity|].
  split; [vm_compute; discriminate | eexists; reflexivity].
Qed.

(** ** Retrying requests *)

Section Retry.

Import Main2.

Variable w : World.

Lemma wait_is_4 : wait_exponential 1 4 10 1 = 4%Z /\ wait_exponential 1 4 10 2 = 4%Z.
Proof. split; reflexivity. Qed.

(** One attempt: at most one request, exactly one when there is a key
    to send; nothing is slept and the keys stay. *)
Lemma attempt_spec (messages : list (string * string)) (s : State) :
  exists s' r,
    attempt w messages s = (s', r) /\
    slept s' = slept s /\
    api_keys (extractor s') = api_keys (extractor s) /\
    requests_made s <= requests_made s' <= S (requests_made s) /\
    (api_keys (extractor s) ≠ [] -> requests_made s' = S (requests_made s)).
Proof.
  unfold attempt, _get_next_api_key.
  destruct (api_keys (extractor s)) as [|k0 ks] eqn:Hkeys.
  - eexists _, _. split; [reflexivity|]. simpl. rewrite Hkeys.
    repeat split; try lia. intros H. contradiction.
  - destruct (post w (requests_made s) _) as [msg|code reason body].
    + eexists _, _. split; [reflexivity|]. simpl. repeat split; lia.
    + destruct (raise_for_status code reason) as [[]|e].
      * destruct body; eexists _, _; (split; [reflexivity|]); simpl;
          repeat split; lia.
      * eexists _, _. split; [reflexivity|]. simpl. repeat split; lia.
Qed.

(** An attempt that meets a refusal (401 or 403), like any other HTTP
    error, raises. *)
Lemma attempt_refused (messages : list (string * string)) (s : State) :
  (forall t req, exists code reason body,
      post w t req = Response code reason body /\ (code = 401 \/ code = 403)%Z) ->
  exists s' e, attempt w messages s = (s', Raise e).
Proof.
  intros Hpost. unfold attempt.
  destruct (_get_next_api_key (extractor s)) as [self [api_key|e]];
    [|eexists _, _; reflexivity].
  match goal with
  | |- context [post w ?t ?req] =>
      destruct (Hpost t req) as (code & reason & body & -> & Hcode)
  end.
  destruct Hcode as [-> | ->]; eexists _, _; reflexivity.
Qed.

(** The three attempts of [_make_api_request], written out. *)
Lemma make_api_request_unfold (messages : list (string * string)) (s : State) :
  _make_api_request w messages s
  = match attempt w messages s with
    | (s1, Return a) => (s1, Return a)
    | (s1, Raise _) =>
        match attempt w messages (sleep 4 s1) with
        | (s2, Return a) => (s2, Return a)
        | (s2, Raise _) =>
            match attempt w messages (sleep 4 s2) with
            | (s3, Return a) => (s3, Return a)
            | (s3, Raise _) => (s3, Raise RetryError)
            end
        end
    end.
Proof.
  unfold _make_api_request. cbn [retry].
  destruct wait_is_4 as [-> ->]. reflexivity.
Qed.

(** C7, as the code has it.  [_make_api_request] of [main2.py] makes at
    most three attempts and retries after any failure, a refusal of the
    key included: when it raises it raises [RetryError], after three
    requests and two waits of four seconds; so it does when every
    request is answered 401 or 403.  [translate_text] of [main.py] makes
    one request whatever the answer, and hands an HTTP error to its
    caller as it is; [process_chunk] then gives up on the chunk unless
    the status is 401. *)
Theorem retry_policy (messages : list (string * string)) (s : State) :
  requests_made (_make_api_request w messages s).1 <= requests_made s + 3
  /\ (forall e,
        (_make_api_request w messages s).2 = Raise e ->
        e = RetryError /\
        slept (_make_api_request w messages s).1 = 4%Z :: 4%Z :: slept s /\
        (api_keys (extractor s) ≠ [] ->
         requests_made (_make_api_request w messages s).1 = requests_made s + 3))
  /\ ((forall t req, exists code reason body,
          post w t req = Response code reason body /\ (code = 401 \/ code = 403)%Z) ->
      (_make_api_request w messages s).2 = Raise RetryError)
  /\ (forall self t text target_lang api_key,
        (Main.translate_text w self t text target_lang api_key).1.2 = S t)
  /\ (forall self t text target_lang api_key code reason body,
        (forall req, post w t req = Response code reason body) ->
        (400 <= code < 600)%Z ->
        Main.translate_text w self t text target_lang api_key
        = (self, S t, Raise (HTTPError code reason)))
  /\ (forall self t chunk chunk_index lang code reason body,
        Main.valid_keys self ≠ [] ->
        detect w t (join NL chunk) = Return lang ->
        (forall req, post w t req = Response code reason body) ->
        (400 <= code < 600)%Z -> code ≠ 401%Z ->
        Main.process_chunk w self t chunk chunk_index
        = Some (self, S t,
                (chunk_index, Main.error_result (HTTPError code reason)))).
Proof.
  rewrite make_api_request_unfold.
  destruct (attempt_spec messages s) as (s1 & r1 & E1 & Hs1 & Hk1 & Hr1 & Hn1).
  destruct (attempt_spec messages (sleep 4 s1))
    as (s2 & r2 & E2 & Hs2 & Hk2 & Hr2 & Hn2).
  destruct (attempt_spec messages (sleep 4 s2))
    as (s3 & r3 & E3 & Hs3 & Hk3 & Hr3 & Hn3).
  simpl in Hs2, Hk2, Hr2, Hn2, Hs3, Hk3, Hr3, Hn3.
  split; [|split; [|split; [|split; [|split]]]].
  - rewrite E1. destruct r1; simpl; [lia|].
    rewrite E2. destruct r2; simpl; [lia|].
    rewrite E3. destruct r3; simpl; lia.
  - intros e. rewrite E1. destruct r1; simpl; [discriminate|].
    rewrite E2. destruct r2; simpl; [discriminate|].
    rewrite E3. destruct r3; simpl; [discriminate|].
    intros [= <-]. split; [reflexivity|]. split; [congruence|].
    intros Hkeys. rewrite Hn3, Hn2, Hn1; try congruence. lia.
  - intros Hpost.
    destruct (attempt_refused messages s Hpost) as (s1' & e1 & E1').
    rewrite E1' in E1. injection E1 as -> <-.
    destruct (attempt_refused messages (sleep 4 s1) Hpost) as (s2' & e2 & E2').
    rewrite E2' in E2. injection E2 as -> <-.
    destruct (attempt_refused messages (sleep 4 s2) Hpost) as (s3' & e3 & E3').
    rewrite E3' in E3. injection E3 as -> <-.
    rewrite E1', E2', E3'. reflexivity.
  - intros self t text target_lang api_key.
    destruct (translate_text_cases w self t text target_lang api_key)
      as (self' & r & -> & _). reflexivity.
  - intros self t text target_lang api_key code reason body Hpost Hcode.
    unfold Main.translate_text. rewrite Hpost. unfold raise_for_status.
    destruct (Z.leb_spec 400 code); [|lia].
    destruct (Z.ltb_spec code 600); [|lia]. reflexivity.
  - intros self t chunk chunk_index lang code reason body.
    apply http_error_fails_chunk.
Qed.

End Retry.

(** C7 as claimed fails on both sides: a refused key is tried again inside
    [_make_api_request], three requests in all and no authentication error
    for the caller to act on; and [translate_text] of [main.py] gives up on
    an overloaded server after its only request. *)
Lemma retry_policy_counterexample :
  (Main2.requests_made (Main2._make_api_request unauthorized [] (fresh unauthorized)).1 = 3
   /\ (Main2._make_api_request unauthorized [] (fresh unauthorized)).2 = Raise RetryError)
  /\ Main.translate_text unavailable (Main.init unavailable) 0 "text" "Nepali" 0
     = (Main.init unavailable, 1, Raise (HTTPError 503 "Service Unavailable")).
Proof. repeat split. Qed.

(** ** The text chunker *)

Section TextChunker.

Import Main2.

Lemma append_cons (c : ascii) (s1 s2 : string) :
  String c s1 +:+ s2 = String c (s1 +:+ s2).
Proof. reflexivity. Qed.

Lemma append_empty_r (s : string) : s +:+ "" = s.
Proof.
  induction s as [|c s IH]; [reflexivity|]. rewrite append_cons, IH. reflexivity.
Qed.

Lemma length_append (s1 s2 : string) :
  String.length (s1 +:+ s2) = String.length s1 + String.length s2.
Proof.
  induction s1 as [|c s1 IH]; [reflexivity|].
  rewrite append_cons. simpl. rewrite IH. reflexivity.
Qed.

Lemma cons_word_words (x : string) (ws : list string) :
  no_space x = true -> Forall is_word ws -> Forall is_word (cons_word x ws).
Proof.
  intros Hx Hws. destruct x as [|c x]; [exact Hws|].
  constructor; [split; [discriminate | exact Hx] | exact Hws].
Qed.

Lemma split_go_words (s : string) :
  no_space (split_go s).1 = true /\ Forall is_word (split_go s).2.
Proof.
  induction s as [|c s [IHw IHws]]; simpl; [split; [reflexivity | constructor]|].
  destruct (split_go s) as [x ws]. simpl in *.
  destruct (isspace c) eqn:Hc; simpl.
  - split; [reflexivity | apply cons_word_words; assumption].
  - rewrite Hc. split; assumption.
Qed.

(** [split] gives words. *)
Lemma split_words (s : string) : Forall is_word (split s).
Proof.
  unfold split. pose proof (split_go_words s) as [Hw Hws].
  destruct (split_go s) as [x ws]. apply cons_word_words; assumption.
Qed.

Lemma split_go_append (x s : string) :
  no_space x = true ->
  split_go (x +:+ s) = (x +:+ (split_go s).1, (split_go s).2).
Proof.
  induction x as [|c x IH]; intros Hx.
  - change ("" +:+ s) with s. destruct (split_go s); reflexivity.
  - simpl in Hx. apply andb_true_iff in Hx as [Hc Hx].
    rewrite !append_cons. cbn [split_go].
    rewrite (IH Hx). apply negb_true_iff in Hc. rewrite Hc. reflexivity.
Qed.

Lemma split_word (x : string) : is_word x -> split x = [x].
Proof.
  intros [Hne Hx]. unfold split.
  rewrite <- (append_empty_r x) at 1. rewrite (split_go_append x "" Hx).
  simpl. rewrite append_empty_r. destruct x; [contradiction | reflexivity].
Qed.

(** Joining words with one space and splitting again gives the words. *)
Lemma split_join (ws : list string) :
  Forall is_word ws -> split (join " " ws) = ws.
Proof.
  induction 1 as [|x ws Hx Hws IH]; [reflexivity|].
  destruct ws as [|y ws]; [exact (split_word x Hx)|].
  change (join " " (x :: y :: ws)) with (x +:+ String " " (join " " (y :: ws))).
  destruct Hx as [Hne Hx]. unfold split in *.
  rewrite (split_go_append x _ Hx). cbn [split_go].
  destruct (split_go (join " " (y :: ws))) as [x' ws'].
  rewrite IH, append_empty_r. destruct x; [contradiction | reflexivity].
Qed.

Lemma total_length_app (ws1 ws2 : list string) :
  total_length (ws1 ++ ws2) = (total_length ws1 + total_length ws2)%Z.
Proof. induction ws1 as [|x ws1 IH]; simpl; [reflexivity | rewrite IH; lia]. Qed.

Lemma join_length (ws : list string) :
  ws ≠ [] ->
  (Z.of_nat (String.length (join " " ws)) + 1 = total_length ws)%Z.
Proof.
  induction ws as [|x ws IH]; intros Hne; [contradiction|].
  destruct ws as [|y ws]; [simpl; lia|].
  change (join " " (x :: y :: ws)) with (x +:+ String " " (join " " (y :: ws))).
  rewrite length_append. cbn [String.length total_length] in *.
  specialize (IH ltac:(discriminate)). lia.
Qed.

(** Closing the current chunk. *)
Lemma flush_ok (chunk_size : Z) (done : list string) (c : Chunking) :
  chunking_ok chunk_size done c ->
  concat (split <$> (chunks c ++ [join " " (current_chunk c)])%list) = done
  /\ Forall (piece_ok chunk_size) (chunks c ++ [join " " (current_chunk c)])%list.
Proof.
  intros [Hw Hc Hl Hp Hb].
  pose proof (split_join _ Hc) as Hsj. split.
  - rewrite fmap_app, concat_app. simpl. rewrite app_nil_r, Hsj. exact Hw.
  - apply Forall_app. split; [exact Hp|]. constructor; [|constructor].
    split; [rewrite Hsj; reflexivity|]. rewrite Hsj. intros Hlen.
    assert (Hne : current_chunk c ≠ [])
      by (destruct (current_chunk c); simpl in *; [lia | discriminate]).
    pose proof (join_length _ Hne). specialize (Hb Hlen). lia.
Qed.

Lemma chunk_word_ok (chunk_size : Z) (done : list string) (c : Chunking)
      (word : string) :
  chunking_ok chunk_size done c -> is_word word ->
  chunking_ok chunk_size (done ++ [word]) (chunk_word chunk_size c word).
Proof.
  intros Hok Hword. unfold chunk_word.
  destruct (Z.ltb_spec chunk_size
              (current_length c + (Z.of_nat (String.length word) + 1))) as [Hlt|Hge].
  - destruct (flush_ok _ _ _ Hok) as [Hw Hp].
    constructor; cbn [chunks current_chunk current_length].
    + rewrite Hw. reflexivity.
    + constructor; [exact Hword | constructor].
    + simpl. lia.
    + exact Hp.
    + simpl. lia.
  - destruct Hok as [Hw Hc Hl Hp Hb].
    constructor; cbn [chunks current_chunk current_length].
    + rewrite app_assoc, Hw. reflexivity.
    + apply Forall_app. split; [exact Hc | constructor; [exact Hword | constructor]].
    + rewrite total_length_app, Hl. simpl. lia.
    + exact Hp.
    + intros _. lia.
Qed.

Lemma chunk_loop_ok (chunk_size : Z) (words : list string) :
  forall (done : list string) (c : Chunking),
    chunking_ok chunk_size done c -> Forall is_word words ->
    chunking_ok chunk_size (done ++ words)
                (fold_left (chunk_word chunk_size) words c).
Proof.
  induction words as [|word words IH]; intros done c Hok Hwords; simpl.
  - rewrite app_nil_r. exact Hok.
  - apply Forall_cons in Hwords as [Hword Hwords].
    replace (done ++ word :: words)%list with ((done ++ [word]) ++ words)%list
      by (rewrite <- app_assoc; reflexivity).
    apply IH; [apply chunk_word_ok; assumption | exact Hwords].
Qed.

(** C8, as the code has it.  The pieces [_chunk_text] returns are made
    of whole words: each piece is its own words joined by single spaces,
    and the words of the pieces, in order, are the words of the text.  A
    piece of more than one word is shorter than the budget; a piece that
    is one word is as long as the word is.  How many pieces 9000
    characters give depends on the words: three when they are 4500
    one-letter words. *)
Theorem chunk_text_words (text : string) (chunk_size : Z) :
  concat (split <$> _chunk_text text chunk_size) = split text
  /\ Forall (fun p => p = join " " (split p)) (_chunk_text text chunk_size)
  /\ Forall (fun p => 1 < length (split p) ->
                      (Z.of_nat (String.length p) < chunk_size)%Z)
            (_chunk_text text chunk_size)
  /\ String.length (letters 4500) = 9000
  /\ length (_chunk_text (letters 4500) MAX_CHUNK_SIZE) = 3.
Proof.
  assert (Hinit : chunking_ok chunk_size []
                    {| chunks := []; current_chunk := []; current_length := 0 |})
    by (constructor; simpl; try constructor; lia).
  pose proof (chunk_loop_ok chunk_size (split text) [] _ Hinit (split_words text))
    as Hok.
  simpl in Hok.
  assert (Hall : concat (split <$> _chunk_text text chunk_size) = split text
                 /\ Forall (piece_ok chunk_size) (_chunk_text text chunk_size)).
  { unfold _chunk_text.
    destruct (current_chunk (fold_left (chunk_word chunk_size) (split text) _))
      as [|x cur] eqn:Hcur.
    - destruct Hok as [Hw _ _ Hp _]. rewrite Hcur, app_nil_r in Hw.
      split; assumption.
    - rewrite <- Hcur. apply flush_ok. exact Hok. }
  destruct Hall as [Hwords Hpieces].
  split; [exact Hwords|].
  split; [eapply Forall_impl; [exact Hpieces | intros p [H _]; exact H]|].
  split; [eapply Forall_impl; [exact Hpieces | intros p [_ H]; exact H]|].
  split; vm_compute; reflexivity.
Qed.

End TextChunker.

(** C8 as claimed fails: 9000 characters without a space come back as two
    pieces, an empty one and the whole text, which is over the budget of
    4000. *)
Lemma chunk_text_counterexample :
  String.length (long_word 9000) = 9000
  /\ Main2._chunk_text (long_word 9000) 4000 = [""; long_word 9000]
  /\ length (Main2._chunk_text (long_word 9000) 4000) ≠ 3
  /\ Exists (fun p => 4000 < String.length p) (Main2._chunk_text (long_word 9000) 4000).
Proof.
  assert (H : Main2._chunk_text (long_word 9000) 4000 = [""; long_word 9000])
    by (vm_compute; reflexivity).
  split; [vm_compute; reflexivity|]. split; [exact H|]. rewrite H.
  split; [discriminate|]. right. left. vm_compute. lia.
Qed.

(** * Further properties of [main.py] *)

(** ** Sizes of the chunks and first keys *)

Section ChunkSizes.

Import Main.

Lemma create_chunks_count (self : ChunkProcessor) (pages : list string)
      (chunks : list (list string)) :
  pages ≠ [] -> api_keys self ≠ [] ->
  create_chunks self pages = Return chunks ->
  length chunks <= length (api_keys self).
Proof.
  intros Hpages Hkeys Hcc.
  destruct (create_chunks_groups self pages Hpages Hkeys)
    as (n & nc & ppc & k & Hn & Hnc & Hppc & Hk & Hgroups).
  rewrite Hgroups in Hcc. apply Return_inj in Hcc as <-.
  rewrite groups_length.
  assert (Hlen : length pages ≠ 0) by (destruct pages; simpl; congruence).
  apply ceil_div_spec in Hppc as (Hnc0 & Hup & _).
  apply ceil_div_spec in Hk as (Hppc0 & _ & Hklow). specialize (Hklow Hlen).
  assert (nc <= length (api_keys self)) by lia.
  destruct (Nat.le_gt_cases k nc) as [Hle|Hgt]; [lia | nia].
Qed.

(** X1.  The comment of [chunk_size], at most eight pages in a chunk, holds
    for the documents of at most eight pages per key, and for no other:
    beyond, the pages are spread over as many chunks as there are keys and
    the chunks grow. *)
Theorem create_chunks_page_limit (self : ChunkProcessor) (pages : list string)
        (chunks : list (list string)) :
  pages ≠ [] -> api_keys self ≠ [] ->
  create_chunks self pages = Return chunks ->
  Forall (fun chunk => length chunk <= 8) chunks
  <-> length pages <= 8 * length (api_keys self).
Proof.
  intros Hpages Hkeys Hcc.
  destruct (create_chunks_groups self pages Hpages Hkeys)
    as (n & nc & ppc & k & Hn & Hnc & Hppc & Hk & Hgroups).
  rewrite Hgroups in Hcc. apply Return_inj in Hcc as <-.
  assert (Hlen : length pages ≠ 0) by (destruct pages; simpl; congruence).
  assert (Hklen : length (api_keys self) ≠ 0)
    by (destruct (api_keys self); simpl; congruence).
  pose proof (ceil_div_pos _ _ _ Hk Hlen) as Hk0.
  apply ceil_div_spec in Hn as (_ & Hnup & Hnlow). specialize (Hnlow Hlen).
  apply ceil_div_spec in Hppc as (Hnc0 & Hup & Hlow). specialize (Hlow Hlen).
  apply ceil_div_spec in Hk as (Hppc0 & Hkup & Hklow). specialize (Hklow Hlen).
  split.
  - intros Hall.
    assert (H0 : groups pages ppc k !! 0
                 = Some (slice pages (0 * ppc) (0 * ppc + ppc)))
      by (apply groups_lookup; lia).
    rewrite Forall_forall in Hall.
    specialize (Hall _ (proj2 (list_elem_of_lookup _ _) (ex_intro _ 0 H0))).
    rewrite slice_length in Hall.
    destruct (Nat.le_gt_cases (length pages) (8 * length (api_keys self)))
      as [Hle|Hgt]; [exact Hle | nia].
  - intros Hle. apply Forall_forall. intros chunk Hin.
    apply list_elem_of_lookup in Hin as [j Hj].
    assert (Hjk : j < k).
    { apply lookup_lt_Some in Hj. rewrite groups_length in Hj. exact Hj. }
    rewrite groups_lookup in Hj by exact Hjk. injection Hj as <-.
    rewrite slice_length.
    assert (ppc <= 8); [|lia].
    destruct (Nat.le_gt_cases ppc 8) as [H8|H8]; [exact H8 | nia].
Qed.

Lemma create_chunks_page_limit_witness :
  exists chunks,
    create_chunks three_keys (repeat "page" 20) = Return chunks /\
    Forall (fun chunk => length chunk <= 8) chunks.
Proof.
  exists [repeat "page" 7; repeat "page" 7; repeat "page" 6].
  split; [reflexivity|].
  apply (create_chunks_page_limit three_keys (repeat "page" 20)).
  - discriminate.
  - discriminate.
  - reflexivity.
  - simpl. lia.
Defined.

Lemma valid_keys_init (w : World) : valid_keys (init w) = seq 0 11.
Proof. reflexivity. Qed.

(** X2.  In a processor just built, chunk [i] of a document is first given
    key [i]: the chunks of one document start on keys of their own. *)
Theorem fresh_chunks_get_own_keys (w : World) (pages : list string)
        (chunks : list (list string)) (i : nat) :
  create_chunks (init w) pages = Return chunks ->
  i < length chunks ->
  get_next_api_key (init w) (Z.of_nat i) = Return i.
Proof.
  intros Hcc Hi.
  assert (Hpages : pages ≠ []).
  { intros ->. rewrite create_chunks_empty_raises in Hcc. discriminate. }
  pose proof (create_chunks_count _ _ _ Hpages (proj2 (init_api_keys w)) Hcc)
    as Hcount.
  rewrite (proj1 (init_api_keys w)) in Hcount.
  apply get_next_api_key_Return. rewrite valid_keys_init, length_seq.
  rewrite Z.mod_small by lia. rewrite Nat2Z.id.
  apply lookup_seq_lt. lia.
Qed.

Lemma fresh_chunks_get_own_keys_witness :
  get_next_api_key (init unauthorized) 2 = Return 2.
Proof.
  apply (fresh_chunks_get_own_keys unauthorized (repeat "page" 20)
           [repeat "page" 7; repeat "page" 7; repeat "page" 6] 2).
  - reflexivity.
  - simpl. lia.
Defined.

End ChunkSizes.

(** ** The pool under [process_chunk] *)

Section PoolChanges.

Import Main.

Variable w : World.

Lemma valid_from_ge (ks : list APIKey) (i r : nat) :
  r ∈ valid_from i ks -> i <= r.
Proof. intros H. apply valid_from_spec in H as [H _]. exact H. Qed.

Lemma filter_all {A} (P : A -> Prop) `{!forall x, Decision (P x)} (l : list A) :
  Forall P l -> filter P l = l.
Proof.
  induction 1 as [|x l Hx _ IH]; [reflexivity|].
  rewrite filter_cons_True by exact Hx. rewrite IH. reflexivity.
Qed.

Lemma valid_from_mark_filter (ks : list APIKey) (i j : nat) :
  valid_from i (alter mark j ks) = filter (fun x => x ≠ i + j) (valid_from i ks).
Proof.
  revert i j. induction ks as [|k ks IH]; intros i j; [reflexivity|].
  destruct j as [|j].
  - change (alter mark 0 (k :: ks)) with (mark k :: ks).
    cbn [valid_from mark invalid]. rewrite Nat.add_0_r.
    assert (Hrest : filter (fun x => x ≠ i) (valid_from (S i) ks)
                    = valid_from (S i) ks).
    { apply filter_all. apply Forall_forall. intros r Hr.
      apply valid_from_ge in Hr. lia. }
    destruct (invalid k).
    + symmetry. exact Hrest.
    + rewrite filter_cons_False by (intros H; apply H; reflexivity).
      symmetry. exact Hrest.
  - change (alter mark (S j) (k :: ks)) with (k :: alter mark j ks).
    cbn [valid_from]. rewrite (IH (S i) j).
    replace (i + S j) with (S i + j) by lia.
    destruct (invalid k); [reflexivity|].
    rewrite filter_cons_True by lia. reflexivity.
Qed.

(** X3.  Marking a key invalid takes it, and only it, out of the keys
    [get_next_api_key] chooses from, the others keeping their order;
    marking it again changes nothing, and the order of two markings does
    not matter. *)
Theorem set_invalid_removes (self : ChunkProcessor) (r r' : nat) :
  valid_keys (set_invalid self r) = filter (fun x => x ≠ r) (valid_keys self)
  /\ set_invalid (set_invalid self r) r = set_invalid self r
  /\ set_invalid (set_invalid self r) r' = set_invalid (set_invalid self r') r.
Proof.
  split; [|split].
  - exact (valid_from_mark_filter (api_keys self) 0 r).
  - unfold set_invalid. cbn [api_keys chunk_size]. f_equal.
    rewrite list_alter_alter_eq. apply list_alter_ext; [|reflexivity].
    intros k _. reflexivity.
  - unfold set_invalid. cbn [api_keys chunk_size]. f_equal.
    rewrite list_alter_alter. destruct (decide (r' = r)) as [->|Hne];
      [|reflexivity].
    rewrite list_alter_alter_eq. reflexivity.
Qed.

Lemma grown_refl (self : ChunkProcessor) : grown self self.
Proof. split; [reflexivity|]. intros i k Hk. exists k. repeat split; auto. Qed.

Lemma grown_trans (s1 s2 s3 : ChunkProcessor) :
  grown s1 s2 -> grown s2 s3 -> grown s1 s3.
Proof.
  intros [Hl12 H12] [Hl23 H23]. split; [congruence|].
  intros i k Hk. destruct (H12 i k Hk) as (k2 & Hk2 & Hkey2 & Hu2 & Hi2).
  destruct (H23 i k2 Hk2) as (k3 & Hk3 & Hkey3 & Hu3 & Hi3).
  exists k3. repeat split; [exact Hk3 | congruence | lia | auto].
Qed.

Lemma grown_mutation (self self' : ChunkProcessor) :
  mutation self self' -> grown self self'.
Proof.
  intros [s j|s j]; (split; [simpl; apply length_alter|]); intros i k Hk;
    simpl; rewrite list_lookup_alter;
    (destruct (decide (j = i)) as [->|Hne];
     [rewrite Hk; simpl; eexists; split; [reflexivity|]; simpl;
      repeat split; auto
     |exists k; repeat split; auto]).
Qed.

Lemma grown_rtc (self self' : ChunkProcessor) :
  rtc mutation self self' -> grown self self'.
Proof.
  induction 1 as [s|s1 s2 s3 Hstep _ IH]; [apply grown_refl|].
  eapply grown_trans; [apply grown_mutation; exact Hstep | exact IH].
Qed.

(** All [process_chunk] does to the processor is marking keys invalid and
    counting uses. *)
Lemma process_chunk_rec_mutates (chunk : list string) (chunk_index : Z)
      (fuel : nat) :
  forall (self : ChunkProcessor) (t : nat) self' t' a,
    process_chunk_rec fuel w self t chunk chunk_index = Some (self', t', a) ->
    rtc mutation self self'.
Proof.
  induction fuel as [|fuel IH]; intros self t self' t' a H; [discriminate|].
  cbn [process_chunk_rec] in H.
  destruct (get_next_api_key self chunk_index) as [api_key|e];
    [|injection H as <- _ _; constructor].
  destruct (detect w t (join NL chunk)) as [source_lang|e];
    [|injection H as <- _ _; constructor].
  destruct (translate_text_cases w self t (join NL chunk)
              (if String.eqb source_lang "ne" then "English" else "Nepali")
              api_key) as (self1 & r & Htr & Hself & _).
  rewrite Htr in H.
  assert (Hstep : rtc mutation self self1).
  { destruct Hself as [->| ->]; [constructor|].
    apply rtc_once. constructor. }
  destruct r as [translated|e]; [injection H as <- _ _; exact Hstep|].
  destruct e; try (injection H as <- _ _; exact Hstep).
  destruct (Z.eqb_spec status_code 401); [|injection H as <- _ _; exact Hstep].
  apply IH in H. eapply rtc_trans; [exact Hstep|].
  eapply rtc_l; [|exact H]. constructor.
Qed.

(** X4.  Whatever happens to a chunk, the pool keeps its keys: as many as
    before, each with its secret, never fewer uses counted, and a key that
    was invalid stays so. *)
Theorem process_chunk_keeps_pool (self : ChunkProcessor) (t : nat)
        (chunk : list string) (chunk_index : Z) :
  exists self' t' a,
    process_chunk w self t chunk chunk_index = Some (self', t', a) /\
    length (api_keys self') = length (api_keys self) /\
    forall i k, api_keys self !! i = Some k ->
      exists k', api_keys self' !! i = Some k' /\
                 key k' = key k /\
                 used_tokens k <= used_tokens k' /\
                 (invalid k = true -> invalid k' = true).
Proof.
  pose proof (valid_keys_length self) as Hle.
  destruct (process_chunk_rec_returns w chunk chunk_index
              (S (length (api_keys self))) self t ltac:(lia))
    as (self' & t' & r & Hrun & _).
  exists self', t', (chunk_index, r). split; [exact Hrun|].
  apply grown_rtc. exact (process_chunk_rec_mutates _ _ _ _ _ _ _ _ Hrun).
Qed.

Lemma process_chunk_rec_requests (chunk : list string) (chunk_index : Z)
      (fuel : nat) :
  forall (self : ChunkProcessor) (t : nat) self' t' a,
    process_chunk_rec fuel w self t chunk chunk_index = Some (self', t', a) ->
    t <= t' <= t + length (valid_keys self).
Proof.
  induction fuel as [|fuel IH]; intros self t self' t' a H; [discriminate|].
  cbn [process_chunk_rec] in H.
  destruct (get_next_api_key self chunk_index) as [api_key|e] eqn:Hkey;
    [|injection H as _ <- _; lia].
  destruct (detect w t (join NL chunk)) as [source_lang|e];
    [|injection H as _ <- _; lia].
  assert (Hpos : length (valid_keys self) ≠ 0).
  { apply get_next_api_key_Return in Hkey. apply lookup_lt_Some in Hkey. lia. }
  destruct (translate_text_cases w self t (join NL chunk)
              (if String.eqb source_lang "ne" then "English" else "Nepali")
              api_key) as (self1 & r & Htr & Hself & Hraise).
  rewrite Htr in H.
  destruct r as [translated|e]; [injection H as _ <- _; lia|].
  destruct e; try (injection H as _ <- _; lia).
  destruct (Z.eqb_spec status_code 401); [|injection H as _ <- _; lia].
  destruct (Hraise _ eq_refl) as [->|Hno]; [|exfalso; apply Hno; eauto].
  pose proof (set_invalid_shrinks _ _ _ Hkey) as Hshrink.
  apply IH in H. lia.
Qed.

(** X5.  A chunk costs at most as many requests as there are valid keys when
    it starts, none when there is none. *)
Theorem process_chunk_requests_bounded (self : ChunkProcessor) (t : nat)
        (chunk : list string) (chunk_index : Z) :
  exists self' t' a,
    process_chunk w self t chunk chunk_index = Some (self', t', a) /\
    t <= t' <= t + length (valid_keys self).
Proof.
  pose proof (valid_keys_length self) as Hle.
  destruct (process_chunk_rec_returns w chunk chunk_index
              (S (length (api_keys self))) self t ltac:(lia))
    as (self' & t' & r & Hrun & _).
  exists self', t', (chunk_index, r). split; [exact Hrun|].
  exact (process_chunk_rec_requests _ _ _ _ _ _ _ _ Hrun).
Qed.

End PoolChanges.

(** ** Rotation of the keys and counted uses *)

Section Failover.

Import Main.

Variable w : World.

Lemma sum_used_alter_use (ks : list APIKey) (r : nat) :
  r < length ks ->
  sum_list (used_tokens <$> alter use r ks) = S (sum_list (used_tokens <$> ks)).
Proof.
  revert r. induction ks as [|k ks IH]; intros r Hr; simpl in Hr; [lia|].
  destruct r as [|r].
  - reflexivity.
  - change (alter use (S r) (k :: ks)) with (k :: alter use r ks).
    cbn [fmap list_fmap sum_list sum_list_with].
    change (list_fmap APIKey nat used_tokens) with (fmap (M:=list) used_tokens).
    rewrite (IH r) by lia. lia.
Qed.

Lemma sum_used_alter_mark (ks : list APIKey) (r : nat) :
  sum_list (used_tokens <$> alter mark r ks) = sum_list (used_tokens <$> ks).
Proof.
  revert r. induction ks as [|k ks IH]; intros r; [reflexivity|].
  destruct r as [|r].
  - reflexivity.
  - change (alter mark (S r) (k :: ks)) with (k :: alter mark r ks).
    cbn [fmap list_fmap sum_list sum_list_with].
    change (list_fmap APIKey nat used_tokens) with (fmap (M:=list) used_tokens).
    rewrite (IH r). reflexivity.
Qed.

Lemma total_used_add_used (self : ChunkProcessor) (chunk_index : Z) (r : nat) :
  get_next_api_key self chunk_index = Return r ->
  total_used (add_used self r) = S (total_used self).
Proof.
  intros H. apply get_next_api_key_valid in H as (k & Hk & _).
  apply sum_used_alter_use. apply lookup_lt_Some in Hk. exact Hk.
Qed.

Lemma total_used_set_invalid (self : ChunkProcessor) (r : nat) :
  total_used (set_invalid self r) = total_used self.
Proof. apply sum_used_alter_mark. Qed.

Lemma translate_text_success (self self' : ChunkProcessor) (t t' : nat)
      (text target_lang c : string) (api_key : nat) :
  translate_text w self t text target_lang api_key = (self', t', Return c) ->
  self' = add_used self api_key.
Proof.
  unfold translate_text. destruct (post w t _) as [msg|code reason body];
    [discriminate|].
  destruct (raise_for_status code reason) as [[]|e]; [|discriminate].
  intros [= <- _ _]. reflexivity.
Qed.

Lemma translate_text_401_at (self : ChunkProcessor) (t : nat)
      (text target_lang : string) (api_key : nat) :
  (forall req, exists reason body, post w t req = Response 401 reason body) ->
  exists reason,
    translate_text w self t text target_lang api_key
    = (self, S t, Raise (HTTPError 401 reason)).
Proof.
  intros H401. unfold translate_text.
  match goal with
  | |- context [post w t ?req] => destruct (H401 req) as (reason & body & ->)
  end.
  exists reason. reflexivity.
Qed.

Lemma get_next_api_key_some (self : ChunkProcessor) (chunk_index : Z) :
  valid_keys self ≠ [] -> exists r, get_next_api_key self chunk_index = Return r.
Proof.
  intros Hne. destruct (get_next_api_key self chunk_index) as [r|e] eqn:H;
    [eauto|]. apply get_next_api_key_Raise in H as [Hnil _]. contradiction.
Qed.

Lemma failover_rec (chunk : list string) (chunk_index : Z) (c reason : string)
      (k : nat) :
  forall (fuel : nat) (self : ChunkProcessor) (t : nat),
    k < length (valid_keys self) -> k < fuel ->
    (forall i req, i < k ->
                   exists reason' body, post w (t + i) req = Response 401 reason' body) ->
    (forall req, post w (t + k) req = Response 200 reason (Json (Some c))) ->
    (forall i, i <= k -> exists l, detect w (t + i) (join NL chunk) = Return l) ->
    exists self',
      process_chunk_rec fuel w self t chunk chunk_index
      = Some (self', t + k + 1,
              (chunk_index, success_result (join NL chunk) c)) /\
      length (valid_keys self') + k = length (valid_keys self) /\
      total_used self' = S (total_used self).
Proof.
  induction k as [|k IH]; intros fuel self t Hvalid Hfuel H401 H200 Hdet;
    (destruct fuel as [|fuel]; [lia|]); cbn [process_chunk_rec];
    (destruct (get_next_api_key_some self chunk_index) as [api_key Hkey];
     [intros Hnil; rewrite Hnil in Hvalid; simpl in Hvalid; lia|]);
    rewrite Hkey;
    destruct (Hdet 0 ltac:(lia)) as [lang Hlang];
    rewrite Nat.add_0_r in Hlang; rewrite Hlang.
  - unfold translate_text. rewrite Nat.add_0_r in H200. rewrite H200.
    cbn [raise_for_status Z.leb Z.ltb Z.compare Pos.compare Pos.compare_cont
         andb json_content].
    exists (add_used self api_key). rewrite Nat.add_0_r, Nat.add_1_r.
    split; [reflexivity|]. rewrite valid_keys_add_used.
    split; [lia | exact (total_used_add_used _ _ _ Hkey)].
  - destruct (translate_text_401_at self t (join NL chunk)
                (if String.eqb lang "ne" then "English" else "Nepali") api_key)
      as [reason' ->].
    { intros req. destruct (H401 0 req ltac:(lia)) as (r' & b' & Hp).
      rewrite Nat.add_0_r in Hp. eauto. }
    change (401 =? 401)%Z with true. cbv iota.
    pose proof (set_invalid_shrinks _ _ _ Hkey) as Hshrink.
    destruct (IH fuel (set_invalid self api_key) (S t)) as (self' & Hrun & Hlen & Hused).
    + lia.
    + lia.
    + intros i req Hi. replace (S t + i) with (t + S i) by lia.
      apply H401. lia.
    + intros req. replace (S t + k) with (t + S k) by lia. apply H200.
    + intros i Hi. replace (S t + i) with (t + S i) by lia. apply Hdet. lia.
    + exists self'. rewrite Hrun.
      replace (S t + k + 1) with (t + S k + 1) by lia.
      split; [reflexivity|]. rewrite total_used_set_invalid in Hused.
      split; [lia | exact Hused].
Qed.

(** X6.  Rotation works: when the first [k] requests of a chunk are answered
    401 and the next one 200 with a translation, and there are more than
    [k] valid keys, the chunk succeeds with that translation after [k + 1]
    requests; [k] keys have become invalid and one use has been counted. *)
Theorem process_chunk_recovers (self : ChunkProcessor) (t : nat)
        (chunk : list string) (chunk_index : Z) (c reason : string) (k : nat) :
  k < length (valid_keys self) ->
  (forall i req, i < k ->
                 exists reason' body, post w (t + i) req = Response 401 reason' body) ->
  (forall req, post w (t + k) req = Response 200 reason (Json (Some c))) ->
  (forall i, i <= k -> exists l, detect w (t + i) (join NL chunk) = Return l) ->
  exists self',
    process_chunk w self t chunk chunk_index
    = Some (self', t + k + 1, (chunk_index, success_result (join NL chunk) c)) /\
    length (valid_keys self') + k = length (valid_keys self) /\
    total_used self' = S (total_used self).
Proof.
  intros Hvalid. pose proof (valid_keys_length self) as Hle.
  apply failover_rec; [exact Hvalid | lia].
Qed.

Lemma process_chunk_rec_counts (chunk : list string) (chunk_index : Z)
      (fuel : nat) :
  forall (self : ChunkProcessor) (t : nat) self' t' r,
    process_chunk_rec fuel w self t chunk chunk_index
    = Some (self', t', (chunk_index, r)) ->
    total_used self <= total_used self' <= S (total_used self) /\
    (status r = "success" -> total_used self' = S (total_used self)).
Proof.
  induction fuel as [|fuel IH]; intros self t self' t' r H; [discriminate|].
  cbn [process_chunk_rec] in H.
  destruct (get_next_api_key self chunk_index) as [api_key|e] eqn:Hkey;
    [|injection H as <- _ <-; split; [lia | discriminate]].
  destruct (detect w t (join NL chunk)) as [source_lang|e];
    [|injection H as <- _ <-; split; [lia | discriminate]].
  destruct (translate_text w self t (join NL chunk)
              (if String.eqb source_lang "ne" then "English" else "Nepali")
              api_key) as [[self1 t1] res] eqn:Htr.
  destruct (translate_text_cases w self t (join NL chunk)
              (if String.eqb source_lang "ne" then "English" else "Nepali")
              api_key) as (self2 & r2 & Htr' & Hself & Hraise).
  rewrite Htr in Htr'. injection Htr' as -> -> ->.
  pose proof (total_used_add_used _ _ _ Hkey) as Hadd.
  assert (Hrange : total_used self <= total_used self2 <= S (total_used self))
    by (destruct Hself as [->| ->]; lia).
  destruct r2 as [translated|e].
  { apply translate_text_success in Htr as ->.
    injection H as <- _ <-. split; [lia | intros _; exact Hadd]. }
  destruct e; try (injection H as <- _ <-; split; [exact Hrange | discriminate]).
  destruct (Z.eqb_spec status_code 401);
    [|injection H as <- _ <-; split; [exact Hrange | discriminate]].
  destruct (Hraise _ eq_refl) as [->|Hno]; [|exfalso; apply Hno; eauto].
  apply IH in H. rewrite total_used_set_invalid in H. exact H.
Qed.

(** X7.  A chunk counts at most one use, and exactly one when it succeeds; a
    refused request counts none.  (A use is also counted for an answer
    that is accepted and then cannot be read.) *)
Theorem process_chunk_counts_uses (self : ChunkProcessor) (t : nat)
        (chunk : list string) (chunk_index : Z) :
  exists self' t' r,
    process_chunk w self t chunk chunk_index = Some (self', t', (chunk_index, r)) /\
    total_used self <= total_used self' <= S (total_used self) /\
    (status r = "success" -> total_used self' = S (total_used self)).
Proof.
  pose proof (valid_keys_length self) as Hle.
  destruct (process_chunk_rec_returns w chunk chunk_index
              (S (length (api_keys self))) self t ltac:(lia))
    as (self' & t' & r & Hrun & _).
  exists self', t', r. split; [exact Hrun|].
  exact (process_chunk_rec_counts _ _ _ _ _ _ _ _ Hrun).
Qed.

End Failover.

Lemma process_chunk_recovers_witness :
  exists self',
    Main.process_chunk one_refusal (Main.init one_refusal) 0 ["page"] 0
    = Some (self', 2, (0%Z, Main.success_result "page" "translated")) /\
    length (Main.valid_keys self') = 10.
Proof.
  destruct (process_chunk_recovers one_refusal (Main.init one_refusal) 0
              ["page"] 0 "translated" "OK" 1) as (self' & Hrun & Hlen & _).
  - simpl. lia.
  - intros i req Hi. assert (i = 0) as -> by lia.
    exists "Unauthorized", NotJson. reflexivity.
  - intros req. reflexivity.
  - intros i _. exists "ne". reflexivity.
  - exists self'. split; [exact Hrun|]. simpl in Hlen. lia.
Defined.

(** ** The requests of the interleaved tasks *)

Section Interleaving.

Import Main.

Variable w : World.

Lemma valid_from_store (n : nat) (ks : list APIKey) (i j : nat) :
  valid_from i (alter (store n) j ks) = valid_from i ks.
Proof.
  revert i j. induction ks as [|k ks IH]; intros i j; [reflexivity|].
  destruct j as [|j]; simpl; [reflexivity|].
  specialize (IH (S i) j). unfold alter in IH. rewrite IH. reflexivity.
Qed.

Lemma valid_keys_set_used (self : ChunkProcessor) (r n : nat) :
  valid_keys (set_used self r n) = valid_keys self.
Proof. apply valid_from_store. Qed.

Lemma valid_keys_set_invalid (self : ChunkProcessor) (r : nat) :
  valid_keys (set_invalid self r) = filter (fun x => x ≠ r) (valid_keys self).
Proof. exact (valid_from_mark_filter (api_keys self) 0 r). Qed.

(** [pick] is the end of [get_next_api_key], and gives one of the keys
    it is given. *)
Lemma get_next_api_key_pick (self : ChunkProcessor) (chunk_index : Z) :
  get_next_api_key self chunk_index = pick (valid_keys self) chunk_index.
Proof. reflexivity. Qed.

Lemma pick_elem (valid : list nat) (chunk_index : Z) :
  (exists r, pick valid chunk_index = Return r /\ r ∈ valid)
  \/ (exists e, pick valid chunk_index = Raise e).
Proof.
  destruct valid as [|r0 valid]; [right; eexists; reflexivity|].
  left. eexists. split; [reflexivity|].
  apply list_elem_of_In, nth_In.
  pose proof (index_in_range chunk_index (length (r0 :: valid))) as Hr.
  simpl in Hr |- *. lia.
Qed.

(** Keys only leave the valid ones, so what holds of a task goes on
    holding while the others move. *)
Lemma asked_ok_mono (self0 self self' : ChunkProcessor) (task : Task)
      (asked : list nat) :
  (forall r, r ∈ valid_keys self' -> r ∈ valid_keys self) ->
  asked_ok self0 self task asked -> asked_ok self0 self' task asked.
Proof.
  intros Hsub (Hnd & Hin & Htask). split; [exact Hnd|]. split; [exact Hin|].
  destruct task as [next valid|r|r lang|r|r body|r n body|res]; try exact I.
  - destruct Htask as (Hvalid & Hinv). split; [exact Hvalid|].
    intros r Hr Hv. exact (Hinv r Hr (Hsub r Hv)).
  - destruct Htask as (H0 & Hnot & Hinv). split; [exact H0|].
    split; [exact Hnot|]. intros r' Hr' Hv. exact (Hinv r' Hr' (Hsub r' Hv)).
  - destruct Htask as (H0 & Hnot & Hinv). split; [exact H0|].
    split; [exact Hnot|]. intros r' Hr' Hv. exact (Hinv r' Hr' (Hsub r' Hv)).
  - destruct Htask as (rest & -> & Hinv). exists rest. split; [reflexivity|].
    intros r' Hr' Hv. exact (Hinv r' Hr' (Hsub r' Hv)).
Qed.

Lemma sum_lengths_insert (asked : list (list nat)) (i : nat) (a a' : list nat) :
  asked !! i = Some a ->
  sum_list (length <$> <[i := a']> asked) + length a
  = sum_list (length <$> asked) + length a'.
Proof.
  revert i. induction asked as [|x asked IH]; intros i H; [discriminate|].
  destruct i as [|i].
  - injection H as ->. simpl. lia.
  - specialize (IH i H). simpl. unfold fmap, insert in IH |- *. lia.
Qed.

(** The step of one task, seen from the task. *)
Lemma task_step_ok (self0 self : ChunkProcessor) (t : nat) (chunk : list string)
      (chunk_index : Z) (task : Task) (a : list nat) :
  asked_ok self0 self task a ->
  (forall r, r ∈ valid_keys self -> r ∈ valid_keys self0) ->
  exists self' t' task' a',
    task_step w chunk chunk_index self t task = (self', t', task') /\
    asked_ok self0 self' task' a' /\
    t' + length a = t + length a' /\
    (forall r, r ∈ valid_keys self' -> r ∈ valid_keys self) /\
    length (valid_keys self') <= length (valid_keys self).
Proof.
  intros (Hnd & Hin & Htask) Hsub.
  destruct task as [next valid|r|r lang|r|r body|r n body|res]; cbn [task_step].
  - destruct Htask as (Hvalid & Hinv).
    destruct (api_keys self !! next) as [k|] eqn:Hk.
    + eexists self, t, _, a. split; [reflexivity|].
      split; [|split; [lia|split; [tauto|lia]]].
      split; [exact Hnd|]. split; [exact Hin|]. split; [|exact Hinv].
      destruct (invalid k) eqn:Hflag; [exact Hvalid|].
      intros r Hr. apply elem_of_app in Hr as [Hr|Hr]; [exact (Hvalid r Hr)|].
      apply list_elem_of_singleton in Hr as ->.
      assert (Hnow : next ∈ valid_keys self)
        by (apply valid_keys_spec; exists k; split; assumption).
      split; [exact (Hsub next Hnow)|]. intros Hr. exact (Hinv next Hr Hnow).
    + destruct (pick_elem valid chunk_index) as [(r & -> & Hr)|(e & ->)].
      * exists self, t, (Chosen r), a. split; [reflexivity|].
        split; [|split; [lia|split; [tauto|lia]]].
        split; [exact Hnd|]. split; [exact Hin|].
        destruct (Hvalid r Hr) as [H0 Hnot].
        split; [exact H0|]. split; [exact Hnot|exact Hinv].
      * exists self, t, (Returned (error_result e)), a. split; [reflexivity|].
        split; [|split; [lia|split; [tauto|lia]]].
        split; [exact Hnd|]. split; [exact Hin|exact I].
  - destruct (detect w t (join NL chunk)) as [source_lang|e].
    + eexists self, t, _, a. split; [reflexivity|].
      split; [|split; [lia|split; [tauto|lia]]].
      split; [exact Hnd|]. split; [exact Hin|exact Htask].
    + eexists self, t, _, a. split; [reflexivity|].
      split; [|split; [lia|split; [tauto|lia]]].
      split; [exact Hnd|]. split; [exact Hin|exact I].
  - destruct Htask as (H0 & Hnot & Hinv).
    assert (Hnd' : NoDup (r :: a)) by (constructor; assumption).
    assert (Hin' : forall r', r' ∈ r :: a -> r' ∈ valid_keys self0).
    { intros r' Hr'. apply elem_of_cons in Hr' as [->|Hr'];
        [exact H0 | exact (Hin r' Hr')]. }
    destruct (post w t _) as [msg|code reason body].
    + eexists self, (S t), _, (r :: a). split; [reflexivity|].
      split; [|split; [simpl; lia|split; [tauto|lia]]].
      split; [exact Hnd'|]. split; [exact Hin'|exact I].
    + unfold raise_for_status.
      destruct ((400 <=? code) && (code <? 600))%Z.
      * destruct (code =? 401)%Z.
        -- eexists self, (S t), _, (r :: a). split; [reflexivity|].
           split; [|split; [simpl; lia|split; [tauto|lia]]].
           split; [exact Hnd'|]. split; [exact Hin'|].
           exists a. split; [reflexivity|exact Hinv].
        -- eexists self, (S t), _, (r :: a). split; [reflexivity|].
           split; [|split; [simpl; lia|split; [tauto|lia]]].
           split; [exact Hnd'|]. split; [exact Hin'|exact I].
      * eexists self, (S t), _, (r :: a). split; [reflexivity|].
        split; [|split; [simpl; lia|split; [tauto|lia]]].
        split; [exact Hnd'|]. split; [exact Hin'|exact I].
  - destruct Htask as (rest & -> & Hinv).
    exists (set_invalid self r), t, Called, (r :: rest). split; [reflexivity|].
    rewrite valid_keys_set_invalid.
    split; [|split; [lia|split]].
    + split; [exact Hnd|]. split; [exact Hin|].
      split; [intros r' Hr'; inversion Hr'|].
      intros r' Hr' Hv. rewrite valid_keys_set_invalid in Hv.
      apply list_elem_of_filter in Hv as [Hne Hv].
      apply elem_of_cons in Hr' as [->|Hr']; [apply Hne; reflexivity|].
      exact (Hinv r' Hr' Hv).
    + intros r' Hv. apply list_elem_of_filter in Hv as [_ Hv]. exact Hv.
    + apply length_filter.
  - eexists self, t, _, a. split; [reflexivity|].
    split; [|split; [lia|split; [tauto|lia]]].
    split; [exact Hnd|]. split; [exact Hin|exact I].
  - eexists (set_used self r (S n)), t, _, a. split; [reflexivity|].
    rewrite valid_keys_set_used.
    split; [|split; [lia|split; [tauto|lia]]].
    split; [exact Hnd|]. split; [exact Hin|exact I].
  - exists self, t, (Returned res), a. split; [reflexivity|].
    split; [|split; [lia|split; [tauto|lia]]].
    split; [exact Hnd|]. split; [exact Hin|exact I].
Qed.

Lemma submit_ok (self : ChunkProcessor) (t : nat) (chunks : list (list string)) :
  pool_ok self t (length chunks) (submit self t chunks)
          ((fun _ => []) <$> chunks).
Proof.
  split; [|split; [|split; [|split]]].
  - cbn [submit pool_processor pool_tasks].
    induction chunks as [|c chunks IH]; [constructor|].
    constructor; [|exact IH].
    split; [constructor|]. split; [intros r Hr; inversion Hr|].
    split; intros r Hr; inversion Hr.
  - apply length_fmap.
  - cbn [submit pool_requests].
    assert (H0 : sum_list (length <$> ((fun _ : list string => @nil nat) <$> chunks))
                 = 0)
      by (induction chunks as [|c chunks IH]; [reflexivity|exact IH]).
    rewrite H0. lia.
  - intros r Hr. exact Hr.
  - reflexivity.
Qed.

Lemma pool_step_ok (self0 : ChunkProcessor) (t0 n : nat)
      (chunks : list (list string)) (p : Pool) (asked : list (list nat))
      (i : nat) :
  pool_ok self0 t0 n p asked ->
  exists asked', pool_ok self0 t0 n (pool_step w chunks p i) asked'.
Proof.
  intros Hok. unfold pool_step.
  destruct (chunks !! i) as [chunk|]; [|exists asked; exact Hok].
  destruct (pool_tasks p !! i) as [task|] eqn:Htask; [|exists asked; exact Hok].
  destruct Hok as (Hall & Hlen & Ht & Hsub & Hle).
  destruct (Forall2_lookup_l _ _ _ _ _ Hall Htask) as (a & Ha & Hok_a).
  destruct (task_step_ok self0 (pool_processor p) (pool_requests p) chunk
              (Z.of_nat i) task a Hok_a Hsub)
    as (self' & t' & task' & a' & -> & Hok' & Ht' & Hsub' & Hle').
  exists (<[i := a']> asked).
  split; [|split; [|split; [|split]]]; cbn [pool_processor pool_requests pool_tasks].
  - apply Forall2_insert; [|exact Hok'].
    eapply Forall2_impl; [exact Hall|].
    intros task0 a0. apply asked_ok_mono. exact Hsub'.
  - rewrite length_insert. exact Hlen.
  - pose proof (sum_lengths_insert asked i a a' Ha). lia.
  - intros r Hr. apply Hsub. apply Hsub'. exact Hr.
  - lia.
Qed.

Lemma run_pool_ok (self0 : ChunkProcessor) (t0 n : nat)
      (chunks : list (list string)) (steps : list nat) :
  forall (p : Pool) (asked : list (list nat)),
    pool_ok self0 t0 n p asked ->
    exists asked', pool_ok self0 t0 n (run_pool w chunks steps p) asked'.
Proof.
  induction steps as [|i steps IH]; intros p asked Hok; [exists asked; exact Hok|].
  destruct (pool_step_ok self0 t0 n chunks p asked i Hok) as (asked1 & Hok1).
  exact (IH _ _ Hok1).
Qed.

(** A task asks every key at most once, and only keys valid at the
    start. *)
Lemma asked_ok_length (self0 self : ChunkProcessor) (task : Task)
      (asked : list nat) :
  asked_ok self0 self task asked -> length asked <= length (valid_keys self0).
Proof.
  intros (Hnd & Hin & _). apply submseteq_length.
  apply NoDup_submseteq; assumption.
Qed.

Lemma sum_lengths_bounded (bound : nat) (asked : list (list nat)) :
  Forall (fun a => length a <= bound) asked ->
  sum_list (length <$> asked) <= length asked * bound.
Proof.
  induction 1 as [|a asked Ha _ IH]; [reflexivity|].
  simpl. unfold fmap in IH |- *. lia.
Qed.

(** *** The tasks one after the other

    [run_tasks] is one of the interleavings: every call of
    [process_chunk] is a run of the steps of its task. *)

Lemma set_used_add_used (self : ChunkProcessor) (r : nat) :
  set_used self r (S (get_used self r)) = add_used self r.
Proof.
  unfold set_used, add_used, get_used. f_equal.
  apply list_alter_ext; [|reflexivity].
  intros k Hk. rewrite Hk. reflexivity.
Qed.

Lemma pool_step_task (chunks : list (list string)) (i : nat)
      (chunk : list string) (self : ChunkProcessor) (t : nat)
      (tasks : list Task) (task : Task) :
  chunks !! i = Some chunk -> i < length tasks ->
  pool_step w chunks {| pool_processor := self; pool_requests := t;
                        pool_tasks := <[i := task]> tasks |} i
  = match task_step w chunk (Z.of_nat i) self t task with
    | (self', t', task') =>
        {| pool_processor := self'; pool_requests := t';
           pool_tasks := <[i := task']> tasks |}
    end.
Proof.
  intros Hchunk Hi. unfold pool_step. cbn [pool_processor pool_requests pool_tasks].
  rewrite Hchunk, list_lookup_insert_eq by exact Hi.
  destruct (task_step w chunk (Z.of_nat i) self t task) as [[self' t'] task'].
  rewrite list_insert_insert_eq. reflexivity.
Qed.

Lemma run_pool_cons (chunks : list (list string)) (i : nat) (steps : list nat)
      (p : Pool) :
  run_pool w chunks (i :: steps) p = run_pool w chunks steps (pool_step w chunks p i).
Proof. reflexivity. Qed.

Lemma run_pool_app (chunks : list (list string)) (steps1 steps2 : list nat)
      (p : Pool) :
  run_pool w chunks (steps1 ++ steps2) p
  = run_pool w chunks steps2 (run_pool w chunks steps1 p).
Proof. apply fold_left_app. Qed.

(** Left alone, the comprehension reads the flags that are left to read
    and keeps the valid keys among them. *)
Lemma reading_steps (chunks : list (list string)) (i : nat)
      (chunk : list string) (tasks : list Task) (self : ChunkProcessor)
      (t : nat) (m : nat) :
  chunks !! i = Some chunk -> i < length tasks ->
  forall (next : nat) (valid : list nat),
    next + m = length (api_keys self) ->
    run_pool w chunks (replicate m i)
             {| pool_processor := self; pool_requests := t;
                pool_tasks := <[i := Reading next valid]> tasks |}
    = {| pool_processor := self; pool_requests := t;
         pool_tasks :=
           <[i := Reading (length (api_keys self))
                          (valid ++ valid_from next (drop next (api_keys self)))]>
             tasks |}.
Proof.
  intros Hchunk Hi. induction m as [|m IH]; intros next valid Hnext.
  - rewrite Nat.add_0_r in Hnext. subst next.
    rewrite drop_all. cbn [valid_from replicate]. rewrite app_nil_r. reflexivity.
  - destruct (lookup_lt_is_Some_2 (api_keys self) next ltac:(lia)) as [k Hk].
    cbn [replicate].
    rewrite run_pool_cons, (pool_step_task _ _ _ _ _ _ _ Hchunk Hi).
    cbn [task_step]. rewrite Hk.
    rewrite (IH (S next)) by lia.
    rewrite (drop_S _ _ _ Hk). cbn [valid_from].
    destruct (invalid k); [reflexivity|].
    rewrite <- app_assoc. reflexivity.
Qed.

(** Left alone, a task that is called chooses the key
    [get_next_api_key] gives. *)
Lemma choosing_steps (chunks : list (list string)) (i : nat)
      (chunk : list string) (tasks : list Task) (self : ChunkProcessor)
      (t : nat) :
  chunks !! i = Some chunk -> i < length tasks ->
  exists steps,
    run_pool w chunks steps
             {| pool_processor := self; pool_requests := t;
                pool_tasks := <[i := Called]> tasks |}
    = {| pool_processor := self; pool_requests := t;
         pool_tasks :=
           <[i := match get_next_api_key self (Z.of_nat i) with
                  | Return api_key => Chosen api_key
                  | Raise e => Returned (error_result e)
                  end]> tasks |}.
Proof.
  intros Hchunk Hi.
  exists (replicate (length (api_keys self)) i ++ [i])%list.
  rewrite run_pool_app. unfold Called.
  rewrite (reading_steps chunks i chunk tasks self t _ Hchunk Hi 0 [])
    by reflexivity.
  rewrite drop_0, app_nil_l.
  rewrite run_pool_cons, (pool_step_task _ _ _ _ _ _ _ Hchunk Hi).
  cbn [task_step]. rewrite lookup_ge_None_2 by lia.
  change (valid_from 0 (api_keys self)) with (valid_keys self).
  rewrite <- get_next_api_key_pick.
  destruct (get_next_api_key self (Z.of_nat i)); reflexivity.
Qed.

Lemma process_chunk_rec_steps (chunks : list (list string)) (i : nat)
      (chunk : list string) (tasks : list Task) (fuel : nat) :
  chunks !! i = Some chunk -> i < length tasks ->
  forall (self : ChunkProcessor) (t : nat) self' t' r,
    process_chunk_rec fuel w self t chunk (Z.of_nat i) = Some (self', t', r) ->
    exists steps,
      run_pool w chunks steps
               {| pool_processor := self; pool_requests := t;
                  pool_tasks := <[i := Called]> tasks |}
      = {| pool_processor := self'; pool_requests := t';
           pool_tasks := <[i := Returned r.2]> tasks |}.
Proof.
  intros Hchunk Hi.
  induction fuel as [|fuel IH]; intros self t self' t' r H; [discriminate|].
  cbn [process_chunk_rec] in H.
  destruct (choosing_steps chunks i chunk tasks self t Hchunk Hi)
    as (choosing & Hchoosing).
  destruct (get_next_api_key self (Z.of_nat i)) as [api_key|e] eqn:Hkey.
  2:{ injection H as <- <- <-. exists choosing. exact Hchoosing. }
  destruct (detect w t (join NL chunk)) as [source_lang|e] eqn:Hdetect.
  2:{ injection H as <- <- <-. exists (choosing ++ [i])%list.
      rewrite run_pool_app, Hchoosing.
      rewrite run_pool_cons, (pool_step_task _ _ _ _ _ _ _ Hchunk Hi).
      cbn [task_step]. rewrite Hdetect. reflexivity. }
  assert (Hsent :
            run_pool w chunks (choosing ++ [i; i])
                     {| pool_processor := self; pool_requests := t;
                        pool_tasks := <[i := Called]> tasks |}
            = pool_step w chunks
                {| pool_processor := self; pool_requests := t;
                   pool_tasks :=
                     <[i := Detected api_key
                                     (if String.eqb source_lang "ne"
                                      then "English" else "Nepali")]> tasks |} i).
  { rewrite run_pool_app, Hchoosing.
    rewrite run_pool_cons, (pool_step_task _ _ _ _ _ _ _ Hchunk Hi).
    cbn [task_step]. rewrite Hdetect. reflexivity. }
  rewrite (pool_step_task _ _ _ _ _ _ _ Hchunk Hi) in Hsent.
  cbn [task_step] in Hsent. unfold translate_text in H.
  destruct (post w t _) as [msg|code reason body].
  { injection H as <- <- <-. exists (choosing ++ [i; i])%list. exact Hsent. }
  unfold raise_for_status in H, Hsent.
  destruct ((400 <=? code) && (code <? 600))%Z.
  - destruct (code =? 401)%Z.
    + destruct (IH _ _ _ _ _ H) as (steps & Hsteps).
      exists ((choosing ++ [i; i]) ++ i :: steps)%list.
      rewrite run_pool_app, Hsent.
      rewrite run_pool_cons, (pool_step_task _ _ _ _ _ _ _ Hchunk Hi).
      cbn [task_step]. exact Hsteps.
    + injection H as <- <- <-. exists (choosing ++ [i; i])%list. exact Hsent.
  - exists ((choosing ++ [i; i]) ++ [i; i])%list.
    rewrite run_pool_app, Hsent.
    rewrite run_pool_cons, (pool_step_task _ _ _ _ _ _ _ Hchunk Hi).
    cbn [task_step].
    rewrite run_pool_cons, (pool_step_task _ _ _ _ _ _ _ Hchunk Hi).
    cbn [task_step]. rewrite set_used_add_used.
    destruct body as [|[c|]]; cbn [json_content] in *;
      injection H as <- <- <-; reflexivity.
Qed.

(** The tasks of a schedule, all of them still to start, run one after
    the other: the pool ends with the processor and the requests of
    [run_tasks], and the tasks have returned what has arrived. *)
Lemma run_tasks_interleaves (fuel : nat) (chunks : list (list string))
      (schedule : list nat) :
  NoDup schedule ->
  forall (self : ChunkProcessor) (t : nat) (tasks : list Task) self' t' arrivals,
    length tasks = length chunks ->
    (forall i, i ∈ schedule -> i < length chunks -> tasks !! i = Some Called) ->
    run_tasks fuel w chunks schedule self t = Some (self', t', arrivals) ->
    exists steps,
      run_pool w chunks steps
               {| pool_processor := self; pool_requests := t; pool_tasks := tasks |}
      = {| pool_processor := self'; pool_requests := t';
           pool_tasks :=
             fold_left (fun ts a => <[Z.to_nat a.1 := Returned a.2]> ts)
                       arrivals tasks |}.
Proof.
  induction 1 as [|i schedule Hnotin _ IH];
    intros self t tasks self' t' arrivals Hlen Hcalled H.
  - injection H as <- <- <-. exists []. reflexivity.
  - cbn [run_tasks] in H.
    destruct (chunks !! i) as [chunk|] eqn:Hchunk.
    2:{ apply IH; [exact Hlen| |exact H].
        intros j Hj. apply Hcalled. right. exact Hj. }
    assert (Hi : i < length tasks)
      by (rewrite Hlen; eapply lookup_lt_Some; exact Hchunk).
    destruct (process_chunk_rec fuel w self t chunk (Z.of_nat i))
      as [[[self1 t1] r]|] eqn:Hrun; [|discriminate].
    destruct (run_tasks fuel w chunks schedule self1 t1)
      as [[[self2 t2] arrivals2]|] eqn:Hrest; [|discriminate].
    injection H as <- <- <-.
    destruct (process_chunk_rec_steps chunks i chunk tasks fuel Hchunk Hi
                _ _ _ _ _ Hrun) as (steps1 & Hsteps1).
    rewrite list_insert_id in Hsteps1
      by (apply Hcalled; [left|rewrite <- Hlen; exact Hi]).
    assert (Hfst : r.1 = Z.of_nat i).
    { clear - Hrun. revert self t Hrun.
      induction fuel as [|fuel IHf]; intros self t Hrun; [discriminate|].
      cbn [process_chunk_rec] in Hrun.
      destruct (get_next_api_key self (Z.of_nat i)); [|injection Hrun as _ _ <-; reflexivity].
      destruct (detect w t (join NL chunk)); [|injection Hrun as _ _ <-; reflexivity].
      destruct (translate_text w self t _ _ _) as [[s1 t1'] [c|e]];
        [injection Hrun as _ _ <-; reflexivity|].
      destruct e; try (injection Hrun as _ _ <-; reflexivity).
      destruct (status_code =? 401)%Z; [exact (IHf _ _ Hrun)|].
      injection Hrun as _ _ <-; reflexivity. }
    destruct (IH self1 t1 (<[i := Returned r.2]> tasks) self2 t2 arrivals2)
      as (steps2 & Hsteps2).
    + rewrite length_insert. exact Hlen.
    + intros j Hj Hjlt. rewrite list_lookup_insert_ne.
      * apply Hcalled; [right; exact Hj|exact Hjlt].
      * intros ->. exact (Hnotin Hj).
    + exact Hrest.
    + exists (steps1 ++ steps2)%list. unfold run_pool in *.
      rewrite fold_left_app, Hsteps1, Hsteps2. cbn [fold_left].
      rewrite Hfst, Nat2Z.id. reflexivity.
Qed.

Lemma run_tasks_from_submit (fuel : nat) (chunks : list (list string))
      (schedule : list nat) (self : ChunkProcessor) (t : nat)
      (self' : ChunkProcessor) (t' : nat) (arrivals : list (Z * ChunkResult)) :
  NoDup schedule ->
  run_tasks fuel w chunks schedule self t = Some (self', t', arrivals) ->
  exists steps,
    run_pool w chunks steps (submit self t chunks)
    = {| pool_processor := self'; pool_requests := t';
         pool_tasks :=
           fold_left (fun ts a => <[Z.to_nat a.1 := Returned a.2]> ts)
                     arrivals (pool_tasks (submit self t chunks)) |}.
Proof.
  intros Hnd H.
  apply (run_tasks_interleaves fuel chunks schedule Hnd self t
           (pool_tasks (submit self t chunks)) self' t' arrivals);
    [apply length_fmap| |exact H].
  intros i _ Hi. cbn [submit pool_tasks]. rewrite list_lookup_fmap.
  destruct (lookup_lt_is_Some_2 chunks i Hi) as [chunk ->]. reflexivity.
Qed.

(** X9.  The requests of a whole run, however the threads of the pool
    interleave: a task asks every key at most once, and only keys that
    were valid when the pool started, so that there are at most as many
    requests as tasks times valid keys; and no key becomes valid again.
    The tasks run one after the other, each once, are one of the
    interleavings. *)
Theorem run_requests_bounded (chunks : list (list string)) (steps : list nat)
        (self : ChunkProcessor) (t : nat) :
  t <= pool_requests (run_pool w chunks steps (submit self t chunks))
  /\ pool_requests (run_pool w chunks steps (submit self t chunks))
     <= t + length chunks * length (valid_keys self)
  /\ length (valid_keys
               (pool_processor (run_pool w chunks steps (submit self t chunks))))
     <= length (valid_keys self)
  /\ (forall r,
        r ∈ valid_keys
              (pool_processor (run_pool w chunks steps (submit self t chunks))) ->
        r ∈ valid_keys self)
  /\ length (pool_tasks (run_pool w chunks steps (submit self t chunks)))
     = length chunks
  /\ (forall fuel schedule self' t' arrivals,
        NoDup schedule ->
        run_tasks fuel w chunks schedule self t = Some (self', t', arrivals) ->
        exists steps',
          run_pool w chunks steps' (submit self t chunks)
          = {| pool_processor := self'; pool_requests := t';
               pool_tasks :=
                 fold_left (fun ts a => <[Z.to_nat a.1 := Returned a.2]> ts)
                           arrivals (pool_tasks (submit self t chunks)) |}).
Proof.
  destruct (run_pool_ok self t (length chunks) chunks steps _ _
              (submit_ok self t chunks))
    as (asked & Hall & Hlen & Ht & Hsub & Hle).
  assert (Hsum : sum_list (length <$> asked)
                 <= length asked * length (valid_keys self)).
  { apply sum_lengths_bounded. apply Forall_forall. intros a Ha.
    apply list_elem_of_lookup in Ha as [i Hi].
    destruct (Forall2_lookup_r _ _ _ _ _ Hall Hi) as (task & _ & Hok).
    exact (asked_ok_length _ _ _ _ Hok). }
  rewrite Hlen in Hsum.
  split; [lia|]. split; [lia|]. split; [exact Hle|]. split; [exact Hsub|].
  split; [rewrite (Forall2_length _ _ _ Hall); exact Hlen|].
  intros fuel schedule self' t' arrivals. apply run_tasks_from_submit.
Qed.

End Interleaving.

(** Two tasks of eleven keys that are all refused: the second key is
    asked by both, and five requests have been made when two keys are
    invalid. *)
Example two_tasks_one_key :
  Main.pool_requests
    (Main.run_pool unauthorized [["one"]; ["two"]] refused_twice
                   (Main.submit (Main.init unauthorized) 0 [["one"]; ["two"]]))
  = 5
  /\ length (Main.valid_keys
               (Main.pool_processor
                  (Main.run_pool unauthorized [["one"]; ["two"]] refused_twice
                     (Main.submit (Main.init unauthorized) 0 [["one"]; ["two"]]))))
     = 9.
Proof. split; vm_compute; reflexivity. Qed.

(** ** Merging, and when the run gives nothing *)

Section Merging.

Import Main.

Lemma fold_merge_Raise (results : gmap Z ChunkResult) (l : list nat) (e : exn) :
  fold_left (merge_step results) l (Raise e) = Raise e.
Proof. induction l as [|i l IH]; [reflexivity | exact IH]. Qed.

(** The results under the indices below [n], when they are all there. *)
Lemma results_list (results : gmap Z ChunkResult) (n : nat) :
  (forall i, i < n -> is_Some (results !! Z.of_nat i)) ->
  exists rs, length rs = n /\
             forall j r, rs !! j = Some r -> results !! Z.of_nat j = Some r.
Proof.
  intros Hall.
  exists ((fun j => default (error_result RetryError) (results !! Z.of_nat j))
            <$> seq 0 n).
  split; [rewrite length_fmap, length_seq; reflexivity|].
  intros j r Hj. rewrite list_lookup_fmap in Hj.
  destruct (seq 0 n !! j) as [j'|] eqn:Hseq; [|discriminate].
  apply lookup_seq in Hseq as [-> Hlt]. simpl in Hj.
  destruct (Hall j Hlt) as [r' Hr']. rewrite Hr' in Hj. simpl in Hj.
  rewrite Hr'. exact Hj.
Qed.

(** X10.  Merging needs a result under every index below the number of chunks:
    it returns exactly then, and otherwise raises the [KeyError] of the
    first index without a result.  Results under other indices are not
    looked at. *)
Theorem merge_needs_every_index (n : nat) (results : gmap Z ChunkResult) :
  ((exists m, merge n results = Return m)
   <-> forall i, i < n -> is_Some (results !! Z.of_nat i))
  /\ (forall i, i < n -> results !! Z.of_nat i = None ->
                (forall j, j < i -> is_Some (results !! Z.of_nat j)) ->
                merge n results = Raise (LookupError (pretty i))).
Proof.
  assert (Hmiss : forall i, i < n -> results !! Z.of_nat i = None ->
                            (forall j, j < i -> is_Some (results !! Z.of_nat j)) ->
                            merge n results = Raise (LookupError (pretty i))).
  { intros i Hi Hnone Hbefore.
    destruct (results_list results i Hbefore) as (rs & Hlen & Hrs). subst i.
    unfold merge. replace n with (length rs + S (n - S (length rs))) by lia.
    rewrite seq_app, fold_left_app.
    rewrite (merge_loop results rs 0 [] [] Hrs).
    rewrite Nat.add_0_l. cbn [seq fold_left].
    assert (Hstep : forall m, merge_step results (Return m) (length rs)
                              = Raise (LookupError (pretty (length rs)))).
    { intros m. unfold merge_step. simpl_bind. rewrite Hnone. reflexivity. }
    rewrite Hstep, fold_merge_Raise. reflexivity. }
  split; [|exact Hmiss]. split.
  - intros [m Hm] i Hi.
    destruct (results !! Z.of_nat i) as [r|] eqn:Hr; [eauto|]. exfalso.
    assert (Hex : exists j, j <= i /\ results !! Z.of_nat j = None
                            /\ forall j', j' < j -> is_Some (results !! Z.of_nat j')).
    { clear Hm Hi. induction i as [i IH] using lt_wf_ind.
      destruct (decide (Forall (fun j => is_Some (results !! Z.of_nat j)) (seq 0 i)))
        as [Hall|Hnot].
      - exists i. split; [lia|]. split; [exact Hr|]. intros j' Hj'.
        rewrite Forall_forall in Hall. apply Hall, elem_of_seq. lia.
      - apply not_Forall_Exists in Hnot; [|intros x; apply _].
        apply Exists_exists in Hnot as (j & Hj & Hnone).
        apply elem_of_seq in Hj.
        assert (Hjn : results !! Z.of_nat j = None).
        { destruct (results !! Z.of_nat j) as [r'|] eqn:Hrj; [|reflexivity].
          exfalso. apply Hnone. exists r'. exact Hrj. }
        destruct (IH j ltac:(lia) Hjn) as (j0 & Hle & H0 & Hb).
        exists j0. split; [lia|]. split; assumption. }
    destruct Hex as (j & Hle & Hnone & Hbefore).
    rewrite (Hmiss j ltac:(lia) Hnone Hbefore) in Hm. discriminate.
  - intros Hall. destruct (results_list results n Hall) as (rs & Hlen & Hrs).
    exists (merged_of rs). rewrite <- Hlen. apply merge_of_results. exact Hrs.
Qed.

Lemma section_of_nonempty (i : nat) (text : string) : section_of i text ≠ "".
Proof. unfold section_of. discriminate. Qed.

Lemma join_nonempty (sep x : string) (l : list string) :
  x ≠ "" -> join sep (x :: l) ≠ "".
Proof.
  intros Hx. unfold join. cbn [String.concat].
  destruct l; [exact Hx|]. destruct x; [contradiction | discriminate].
Qed.

Lemma sections_from_nil (field : ChunkResult -> string) (rs : list ChunkResult) :
  forall i, sections_from field i rs = []
            <-> Forall (fun r => status r ≠ "success") rs.
Proof.
  induction rs as [|r rs IH]; intros i; cbn [sections_from].
  - split; [constructor | reflexivity].
  - destruct (String.eqb_spec (status r) "success") as [Heq|Hne].
    + split; [discriminate|]. intros H. apply Forall_cons in H as [H _].
      contradiction.
    + rewrite IH. split; [intros H; constructor; assumption|].
      intros H. apply Forall_cons in H as [_ H]. exact H.
Qed.

Lemma sections_from_nonempty (field : ChunkResult -> string) (rs : list ChunkResult) :
  forall i, Forall (fun x => x ≠ "") (sections_from field i rs).
Proof.
  induction rs as [|r rs IH]; intros i; cbn [sections_from]; [constructor|].
  destruct (String.eqb (status r) "success"); [|apply IH].
  constructor; [apply section_of_nonempty | apply IH].
Qed.

Lemma join_sections_empty (field : ChunkResult -> string) (rs : list ChunkResult) :
  join SEPARATOR (sections_from field 0 rs) = ""
  <-> Forall (fun r => status r ≠ "success") rs.
Proof.
  rewrite <- (sections_from_nil field rs 0).
  pose proof (sections_from_nonempty field rs 0) as Hne.
  destruct (sections_from field 0 rs) as [|x l]; [split; reflexivity|].
  apply Forall_cons in Hne as [Hx _].
  split; [|discriminate]. intros Hj. exfalso.
  exact (join_nonempty SEPARATOR x l Hx Hj).
Qed.

(** X11.  The documents of a run are empty exactly when no chunk succeeded:
    the caller gets a dict in any case, and only its texts tell. *)
Theorem merged_empty_iff (rs : list ChunkResult) :
  exists m,
    merge (length rs) (collect (indexed rs)) = Return m /\
    (merged_original m = "" <-> Forall (fun r => status r ≠ "success") rs) /\
    (merged_translated m = "" <-> Forall (fun r => status r ≠ "success") rs).
Proof.
  exists (merged_of rs). split.
  - apply merge_of_results. intros j r Hj.
    apply (collect_indexed rs (indexed rs) (reflexivity _)). eauto.
  - split; apply join_sections_empty.
Qed.

Variable w : World.

Lemma filter_nil_blank (texts : list string) :
  List.filter (fun text => negb (strip_is_empty text)) texts = []
  <-> Forall (fun text => strip_is_empty text = true) texts.
Proof.
  induction texts as [|text texts IH]; cbn [List.filter].
  - split; [constructor | reflexivity].
  - destruct (strip_is_empty text) eqn:Hb; cbn [negb].
    + rewrite IH. split; [intros H; constructor; assumption|].
      intros H. apply Forall_cons in H as [_ H]. exact H.
    + split; [discriminate|]. intros H. apply Forall_cons in H as [H _].
      simpl in H. congruence.
Qed.

(** X12.  [process_document] returns [None] in two cases only, a PDF that
    cannot be read and a PDF without a page of text; no failure of a
    chunk makes it return [None]. *)
Theorem process_document_none_iff (fuel : nat) (schedule : list nat)
        (file_content : string) :
  11 < fuel ->
  (forall texts chunks,
      read_pdf w file_content = Return texts ->
      create_chunks (init w)
        (List.filter (fun text => negb (strip_is_empty text)) texts)
      = Return chunks ->
      schedule ≡ₚ seq 0 (length chunks)) ->
  process_document fuel w schedule file_content = Some None
  <-> (exists e, read_pdf w file_content = Raise e)
      \/ (exists texts, read_pdf w file_content = Return texts /\
                        Forall (fun text => strip_is_empty text = true) texts).
Proof.
  intros Hfuel Hsched.
  destruct (read_pdf w file_content) as [texts|e] eqn:Hread.
  2:{ unfold process_document. rewrite Hread. split; [eauto | reflexivity]. }
  set (pages := List.filter (fun text => negb (strip_is_empty text)) texts).
  destruct pages as [|page pages'] eqn:Hpages.
  - assert (Hblank : Forall (fun text => strip_is_empty text = true) texts)
      by (apply filter_nil_blank; exact Hpages).
    unfold process_document. rewrite Hread. fold pages. rewrite Hpages.
    split; [intros _; right; eauto | reflexivity].
  - assert (Hne : pages ≠ []) by (rewrite Hpages; discriminate).
    destruct (create_chunks_groups (init w) pages Hne (proj2 (init_api_keys w)))
      as (n & nc & ppc & k & _ & _ & _ & _ & Hcc).
    destruct (process_document_completes w fuel schedule file_content texts _
                Hfuel Hread Hcc (Hsched texts _ eq_refl Hcc))
      as (rs & _ & Hrun).
    rewrite Hrun. split; [discriminate|].
    intros [[e He]|(texts' & [= <-] & Hblank)]; [discriminate|].
    apply filter_nil_blank in Hblank. fold pages in Hblank. contradiction.
Qed.

End Merging.

Lemma process_document_none_iff_witness :
  Main.process_document 12 unauthorized [0] "" ≠ Some None.
Proof.
  intros H.
  apply (process_document_none_iff unauthorized 12 [0] "") in H.
  - destruct H as [[e He]|(texts & [= <-] & Hblank)]; [discriminate|].
    apply Forall_cons in Hblank as [Hb _]. discriminate.
  - lia.
  - intros texts chunks [= <-] [= <-]. reflexivity.
Defined.

(** * Further properties of [main2.py] *)

(** ** The rotation of the keys *)

Section KeyRotation.

Import Main2.

Lemma get_next_api_key_step (self : MetadataExtractor) :
  api_keys self ≠ [] ->
  exists self' key,
    _get_next_api_key self = (self', Return key) /\
    api_keys self' = api_keys self /\
    url self' = url self /\
    current_key_index self'
    = (current_key_index self + 1) mod length (api_keys self) /\
    api_keys self !! current_key_index self' = Some key.
Proof.
  intros Hne. unfold _get_next_api_key.
  destruct (api_keys self) as [|k0 ks] eqn:Hkeys; [contradiction|].
  eexists _, _. split; [reflexivity|]. cbn [api_keys url current_key_index].
  repeat split.
  destruct (nth_lookup_or_length (k0 :: ks)
              ((current_key_index self + 1) mod length (k0 :: ks)) k0)
    as [H|H]; [exact H|].
  pose proof (Nat.mod_upper_bound (current_key_index self + 1)
                (length (k0 :: ks)) ltac:(discriminate)). lia.
Qed.

Lemma next_keys_lookup (k : nat) :
  forall (self : MetadataExtractor),
    api_keys self ≠ [] ->
    length (next_keys k self).2 = k /\
    api_keys (next_keys k self).1 = api_keys self /\
    (0 < k -> current_key_index (next_keys k self).1
              = (current_key_index self + k) mod length (api_keys self)) /\
    forall j, j < k ->
      (next_keys k self).2 !! j
      = api_keys self !! ((current_key_index self + 1 + j) mod length (api_keys self)).
Proof.
  induction k as [|k IH]; intros self Hne.
  - repeat split; intros; lia.
  - destruct (get_next_api_key_step self Hne)
      as (self' & key & Hcall & Hkeys & _ & Hidx & Hkey).
    cbn [next_keys]. rewrite Hcall. cbn [fst snd].
    assert (Hne' : api_keys self' ≠ []) by (rewrite Hkeys; exact Hne).
    destruct (IH self' Hne') as (Hlen & Hk & Hi & Hl).
    rewrite Hkeys in Hi, Hl.
    split; [simpl; rewrite Hlen; reflexivity|].
    split; [rewrite Hk; exact Hkeys|]. split.
    + intros _. destruct k as [|k].
      * cbn [next_keys fst]. rewrite Hidx. reflexivity.
      * rewrite Hi by lia. rewrite Hidx, Nat.Div0.add_mod_idemp_l.
        f_equal. lia.
    + intros [|j] Hj.
      * cbn [lookup list_lookup]. rewrite Nat.add_0_r, <- Hidx.
        symmetry. exact Hkey.
      * change ((key :: (next_keys k self').2) !! S j)
          with ((next_keys k self').2 !! j).
        rewrite Hl by lia. rewrite Hidx, <- Nat.add_assoc, Nat.Div0.add_mod_idemp_l.
        reflexivity.
Qed.

Lemma rotate_Permutation_keys {A} (n : nat) (l : list A) : rotate n l ≡ₚ l.
Proof.
  unfold rotate. rewrite Permutation_app_comm. rewrite take_drop. reflexivity.
Qed.

(** X14.  The keys are handed out in turn, starting after the current one:
    call number [j + 1] gives the key at position [current_key_index + 1 +
    j] modulo the number of keys; as many calls as there are keys give
    every key once and leave the index where it was.  A new extractor
    starts with its second key. *)
Theorem keys_in_turn (self : MetadataExtractor) (k : nat) :
  api_keys self ≠ [] ->
  current_key_index self < length (api_keys self) ->
  (forall j, j < k ->
     (next_keys k self).2 !! j
     = api_keys self !! ((current_key_index self + 1 + j) mod length (api_keys self)))
  /\ (next_keys (length (api_keys self)) self).2
     = rotate (current_key_index self + 1) (api_keys self)
  /\ (next_keys (length (api_keys self)) self).2 ≡ₚ api_keys self
  /\ current_key_index (next_keys (length (api_keys self)) self).1
     = current_key_index self.
Proof.
  intros Hne Hidx.
  assert (Hn : length (api_keys self) ≠ 0)
    by (destruct (api_keys self); [contradiction | discriminate]).
  destruct (next_keys_lookup k self Hne) as (_ & _ & _ & Hl).
  destruct (next_keys_lookup (length (api_keys self)) self Hne)
    as (Hlen & _ & Hi & Hall).
  assert (Hrot : (next_keys (length (api_keys self)) self).2
                 = rotate (current_key_index self + 1) (api_keys self)).
  { apply list_eq. intros j.
    destruct (Nat.lt_ge_cases j (length (api_keys self))) as [Hj|Hj].
    - rewrite Hall by exact Hj. rewrite lookup_rotate_r by exact Hj.
      unfold rotate_nat_add.
      rewrite <- Nat2Z.inj_add, <- Nat2Z.inj_mod, Nat2Z.id. reflexivity.
    - rewrite !lookup_ge_None_2; [reflexivity | |].
      + rewrite length_rotate. exact Hj.
      + rewrite Hlen. exact Hj. }
  split; [exact Hl|]. split; [exact Hrot|]. split.
  - rewrite Hrot. apply rotate_Permutation_keys.
  - rewrite Hi by lia.
    rewrite <- (Nat.Div0.add_mod_idemp_r (current_key_index self)),
      Nat.Div0.mod_same, Nat.add_0_r.
    apply Nat.mod_small. exact Hidx.
Qed.

Lemma keys_in_turn_witness :
  (next_keys 2 (init unauthorized)).2
  = [getenv unauthorized "API_KEY_10"; getenv unauthorized "API_KEY_9"].
Proof.
  destruct (keys_in_turn (init unauthorized) 2) as (_ & Hrot & _).
  - discriminate.
  - simpl. lia.
  - exact Hrot.
Defined.

(** Without a key the call raises and leaves the extractor as it is. *)
Theorem no_key_raises (self : MetadataExtractor) :
  api_keys self = [] <->
  _get_next_api_key self = (self, Raise (APIError "No API keys available.")).
Proof.
  unfold _get_next_api_key. destruct (api_keys self) as [|k0 ks].
  - split; reflexivity.
  - split; discriminate.
Qed.

End KeyRotation.

(** ** More on the text chunker *)

Section TextBudget.

Import Main2.

Lemma split_nil_iff (s : string) : split s = [] <-> strip_is_empty s = true.
Proof.
  unfold split, strip_is_empty.
  induction s as [|c s IH]; [split; reflexivity|].
  cbn [split_go list_ascii_of_string forallb].
  destruct (split_go s) as [x ws]. destruct (isspace c); cbn [andb cons_word].
  - exact IH.
  - split; discriminate.
Qed.

Lemma chunk_word_current (chunk_size : Z) (c : Chunking) (word : string) :
  current_chunk (chunk_word chunk_size c word) ≠ [].
Proof.
  unfold chunk_word. destruct (_ <? _)%Z; cbn [current_chunk]; [discriminate|].
  destruct (current_chunk c); discriminate.
Qed.

Lemma chunk_loop_current (chunk_size : Z) (words : list string) (c : Chunking) :
  words ≠ [] ->
  current_chunk (fold_left (chunk_word chunk_size) words c) ≠ [].
Proof.
  revert c. induction words as [|word words IH]; intros c Hne; [contradiction|].
  cbn [fold_left]. destruct words as [|word' words'].
  - apply chunk_word_current.
  - apply IH. discriminate.
Qed.

(** X15.  A text gives no piece at all exactly when it has no word, that is
    when it is empty or all whitespace. *)
Theorem chunk_text_nil_iff (text : string) (chunk_size : Z) :
  _chunk_text text chunk_size = [] <-> strip_is_empty text = true.
Proof.
  rewrite <- split_nil_iff. unfold _chunk_text.
  destruct (split text) as [|word words] eqn:Hs.
  - split; reflexivity.
  - pose proof (chunk_loop_current chunk_size (word :: words)
                  {| chunks := []; current_chunk := []; current_length := 0 |}
                  ltac:(discriminate)) as Hcur.
    destruct (current_chunk (fold_left _ _ _)) as [|x cur]; [contradiction|].
    split; [|discriminate]. intros H. apply (f_equal length) in H.
    rewrite length_app in H. simpl in H. lia.
Qed.

Lemma word_length (x : string) : is_word x -> 1 <= String.length x.
Proof. intros [Hne _]. destruct x; [contradiction | simpl; lia]. Qed.

Lemma total_length_pos (ws : list string) :
  Forall is_word ws -> ws ≠ [] -> (2 <= total_length ws)%Z.
Proof.
  intros Hws Hne. destruct ws as [|x ws]; [contradiction|].
  apply Forall_cons in Hws as [Hx Hws]. apply word_length in Hx.
  assert (0 <= total_length ws)%Z.
  { clear. induction ws as [|y ws IH]; simpl; lia. }
  simpl. lia.
Qed.

Lemma piece_fits (chunk_size : Z) (done : list string) (c : Chunking) :
  chunking_ok chunk_size done c -> chunking_fits chunk_size c ->
  current_chunk c ≠ [] ->
  join " " (current_chunk c) ≠ ""
  /\ (Z.of_nat (String.length (join " " (current_chunk c))) < chunk_size)%Z.
Proof.
  intros [_ Hc Hl _ _] [_ Hb] Hne. specialize (Hb Hne).
  pose proof (join_length _ Hne) as Hj.
  pose proof (total_length_pos _ Hc Hne) as Hpos.
  split; [|lia]. intros Hnil. rewrite Hnil in Hj. simpl in Hj. lia.
Qed.

Lemma chunk_word_fits (chunk_size : Z) (done : list string) (c : Chunking)
      (word : string) :
  chunking_ok chunk_size done c -> chunking_fits chunk_size c ->
  (Z.of_nat (String.length word) < chunk_size)%Z ->
  chunking_fits chunk_size (chunk_word chunk_size c word).
Proof.
  intros Hok Hfits Hword. unfold chunk_word.
  destruct (Z.ltb_spec chunk_size
              (current_length c + (Z.of_nat (String.length word) + 1))) as [Hlt|Hge].
  - assert (Hne : current_chunk c ≠ []).
    { intros Hnil. pose proof (ok_length _ _ _ Hok) as Hl.
      rewrite Hnil in Hl. simpl in Hl. lia. }
    constructor; cbn [chunks current_chunk current_length].
    + apply Forall_app. split; [apply Hfits|].
      constructor; [|constructor]. exact (piece_fits _ _ _ Hok Hfits Hne).
    + intros _. lia.
  - constructor; cbn [chunks current_chunk current_length].
    + apply Hfits.
    + intros _. lia.
Qed.

Lemma chunk_loop_fits (chunk_size : Z) (words : list string) :
  forall (done : list string) (c : Chunking),
    chunking_ok chunk_size done c -> chunking_fits chunk_size c ->
    Forall is_word words ->
    Forall (fun x => (Z.of_nat (String.length x) < chunk_size)%Z) words ->
    chunking_fits chunk_size (fold_left (chunk_word chunk_size) words c).
Proof.
  induction words as [|word words IH]; intros done c Hok Hfits Hwords Hshort;
    [exact Hfits|].
  apply Forall_cons in Hwords as [Hword Hwords].
  apply Forall_cons in Hshort as [Hs Hshort]. cbn [fold_left].
  apply (IH (done ++ [word])%list); try assumption.
  - apply chunk_word_ok; assumption.
  - apply (chunk_word_fits _ done); assumption.
Qed.

(** X16.  When every word of the text is shorter than the budget, every piece
    is shorter than the budget too, and no piece is empty. *)
Theorem chunk_text_fits (text : string) (chunk_size : Z) :
  Forall (fun x => (Z.of_nat (String.length x) < chunk_size)%Z) (split text) ->
  Forall (fun p => p ≠ "" /\ (Z.of_nat (String.length p) < chunk_size)%Z)
         (_chunk_text text chunk_size).
Proof.
  intros Hshort.
  set (c0 := {| chunks := []; current_chunk := []; current_length := 0 |}).
  assert (Hok0 : chunking_ok chunk_size [] c0)
    by (constructor; simpl; try constructor; lia).
  assert (Hfits0 : chunking_fits chunk_size c0)
    by (constructor; simpl; [constructor | intros H; contradiction]).
  pose proof (chunk_loop_ok chunk_size (split text) [] c0 Hok0 (split_words text))
    as Hok.
  pose proof (chunk_loop_fits chunk_size (split text) [] c0 Hok0 Hfits0
                (split_words text) Hshort) as Hfits.
  unfold _chunk_text. fold c0.
  destruct (current_chunk (fold_left (chunk_word chunk_size) (split text) c0))
    as [|x cur] eqn:Hcur.
  - apply Hfits.
  - apply Forall_app. split; [apply Hfits|]. constructor; [|constructor].
    rewrite <- Hcur. apply (piece_fits _ _ _ Hok Hfits). rewrite Hcur. discriminate.
Qed.

Lemma chunk_text_fits_witness :
  Forall (fun p => p ≠ "" /\ (Z.of_nat (String.length p) < 6)%Z)
         (_chunk_text "aaa bb  ccccc d e f" 6).
Proof.
  apply chunk_text_fits. vm_compute. repeat constructor.
Defined.

End TextBudget.

(** ** Requests that succeed after failures *)

Section Recovery.

Import Main2.

Variable w : World.

Lemma attempt_fails (messages : list (string * string)) (s : State) :
  api_keys (extractor s) ≠ [] ->
  (forall req, failing (post w (requests_made s) req)) ->
  exists s' e,
    attempt w messages s = (s', Raise e) /\
    requests_made s' = S (requests_made s) /\
    slept s' = slept s /\
    api_keys (extractor s') = api_keys (extractor s).
Proof.
  intros Hkeys Hfail. unfold attempt.
  destruct (get_next_api_key_step (extractor s) Hkeys)
    as (self' & key & -> & Hk & _).
  match goal with
  | |- context [post w (requests_made s) ?req] =>
      specialize (Hfail req); destruct (post w (requests_made s) req)
        as [msg|code reason body]
  end.
  - eexists _, _. split; [reflexivity|]. simpl. auto.
  - unfold raise_for_status. simpl in Hfail.
    destruct (Z.leb_spec 400 code); destruct (Z.ltb_spec code 600); cbn [andb];
      try (eexists _, _; split; [reflexivity|]; simpl; auto; fail);
      (destruct Hfail as [Hcode| ->]; [lia|]);
      eexists _, _; (split; [reflexivity|]); simpl; auto.
Qed.

Lemma attempt_succeeds (messages : list (string * string)) (s : State)
      (code : Z) (reason : string) (content : option string) :
  api_keys (extractor s) ≠ [] ->
  (forall req, post w (requests_made s) req = Response code reason (Json content)) ->
  ~ (400 <= code < 600)%Z ->
  exists s',
    attempt w messages s = (s', Return content) /\
    requests_made s' = S (requests_made s) /\
    slept s' = slept s /\
    api_keys (extractor s') = api_keys (extractor s).
Proof.
  intros Hkeys Hpost Hcode. unfold attempt.
  destruct (get_next_api_key_step (extractor s) Hkeys)
    as (self' & key & -> & Hk & _).
  rewrite Hpost. unfold raise_for_status.
  destruct (Z.leb_spec 400 code); destruct (Z.ltb_spec code 600); cbn [andb];
    try lia; eexists; (split; [reflexivity|]); simpl; auto.
Qed.

(** X17.  A request that fails [j] times, [j] being 0, 1 or 2, and is then
    answered gives the content of the answer, after [j + 1] requests and
    [j] waits of four seconds. *)
Theorem request_recovers (messages : list (string * string)) (s : State)
        (j : nat) (code : Z) (reason : string) (content : option string) :
  j < 3 ->
  api_keys (extractor s) ≠ [] ->
  (forall i req, i < j -> failing (post w (requests_made s + i) req)) ->
  (forall req, post w (requests_made s + j) req = Response code reason (Json content)) ->
  ~ (400 <= code < 600)%Z ->
  exists s',
    _make_api_request w messages s = (s', Return content) /\
    requests_made s' = requests_made s + j + 1 /\
    slept s' = (repeat 4%Z j ++ slept s)%list.
Proof.
  intros Hj Hkeys Hfail Hgood Hcode. rewrite make_api_request_unfold.
  destruct j as [|[|[|j]]]; [| | |lia].
  - rewrite Nat.add_0_r in Hgood.
    destruct (attempt_succeeds messages s code reason content Hkeys Hgood Hcode)
      as (s1 & -> & Hr1 & Hs1 & _).
    exists s1. split; [reflexivity|]. split; [lia | exact Hs1].
  - destruct (attempt_fails messages s Hkeys) as (s1 & e1 & -> & Hr1 & Hs1 & Hk1).
    { intros req. specialize (Hfail 0 req ltac:(lia)).
      rewrite Nat.add_0_r in Hfail. exact Hfail. }
    destruct (attempt_succeeds messages (sleep 4 s1) code reason content)
      as (s2 & -> & Hr2 & Hs2 & _).
    { simpl. congruence. }
    { intros req. simpl. rewrite Hr1, <- Nat.add_1_r. apply Hgood. }
    { exact Hcode. }
    exists s2. split; [reflexivity|]. simpl in Hr2, Hs2.
    split; [lia | simpl; congruence].
  - destruct (attempt_fails messages s Hkeys) as (s1 & e1 & -> & Hr1 & Hs1 & Hk1).
    { intros req. specialize (Hfail 0 req ltac:(lia)).
      rewrite Nat.add_0_r in Hfail. exact Hfail. }
    destruct (attempt_fails messages (sleep 4 s1))
      as (s2 & e2 & -> & Hr2 & Hs2 & Hk2).
    { simpl. congruence. }
    { intros req. simpl. rewrite Hr1, <- Nat.add_1_r. apply Hfail. lia. }
    simpl in Hr2, Hs2, Hk2.
    destruct (attempt_succeeds messages (sleep 4 s2) code reason content)
      as (s3 & -> & Hr3 & Hs3 & _).
    { simpl. congruence. }
    { intros req. simpl. rewrite Hr2, Hr1.
      replace (S (S (requests_made s))) with (requests_made s + 2) by lia.
      apply Hgood. }
    { exact Hcode. }
    exists s3. split; [reflexivity|]. simpl in Hr3, Hs3.
    split; [lia | simpl; congruence].
Qed.

End Recovery.

Lemma request_recovers_witness :
  exists s',
    Main2._make_api_request third_time_lucky [] (fresh third_time_lucky)
    = (s', Return (Some "answer")) /\
    Main2.requests_made s' = 3 /\ Main2.slept s' = [4%Z; 4%Z].
Proof.
  destruct (request_recovers third_time_lucky [] (fresh third_time_lucky)
              2 200 "OK" (Some "answer")) as (s' & Hrun & Hreq & Hslept).
  - lia.
  - discriminate.
  - intros i req Hi. simpl.
    destruct i as [|[|i]]; [exact I | exact I | lia].
  - intros req. reflexivity.
  - lia.
  - exists s'. split; [exact Hrun|]. split; [exact Hreq | exact Hslept].
Defined.

(** ** Extraction and translation piece by piece *)

Section Pieces.

Import Main2.

Variable w : World.

Lemma extract_metadata_loop (s : State) (text : string) :
  extract_metadata w s text
  = ((fold_left (piece_step w metadata_prompt)
                (_chunk_text text MAX_CHUNK_SIZE) (s, [])).1,
     join (NL +:+ NL)
          (fold_left (piece_step w metadata_prompt)
                     (_chunk_text text MAX_CHUNK_SIZE) (s, [])).2).
Proof. reflexivity. Qed.

Lemma translate_text_loop (s : State) (text target_lang : string) :
  translate_text w s text target_lang
  = ((fold_left (piece_step w (translation_prompt target_lang))
                (_chunk_text text MAX_CHUNK_SIZE) (s, [])).1,
     join NL
          (fold_left (piece_step w (translation_prompt target_lang))
                     (_chunk_text text MAX_CHUNK_SIZE) (s, [])).2).
Proof. reflexivity. Qed.

Lemma make_api_request_bounds (messages : list (string * string)) (s : State) :
  requests_made s <= requests_made (_make_api_request w messages s).1
  <= requests_made s + 3
  /\ api_keys (extractor (_make_api_request w messages s).1)
     = api_keys (extractor s).
Proof.
  rewrite make_api_request_unfold.
  destruct (attempt_spec w messages s) as (s1 & r1 & -> & _ & Hk1 & Hr1 & _).
  destruct r1; cbn [fst]; [split; [lia | exact Hk1]|].
  destruct (attempt_spec w messages (sleep 4 s1))
    as (s2 & r2 & -> & _ & Hk2 & Hr2 & _).
  simpl in Hk2, Hr2.
  destruct r2; cbn [fst]; [split; [lia | congruence]|].
  destruct (attempt_spec w messages (sleep 4 s2))
    as (s3 & r3 & -> & _ & Hk3 & Hr3 & _).
  simpl in Hk3, Hr3.
  destruct r3; cbn [fst]; (split; [lia | congruence]).
Qed.

Lemma piece_step_bounds (prompt : string -> list (string * string))
      (s : State) (acc : list string) (piece : string) :
  exists s' acc',
    piece_step w prompt (s, acc) piece = (s', acc') /\
    requests_made s <= requests_made s' <= requests_made s + 3 /\
    length acc' <= length acc + 1.
Proof.
  pose proof (make_api_request_bounds (prompt piece) s) as [Hr _].
  unfold piece_step. cbn [fst snd].
  destruct (_make_api_request w (prompt piece) s) as [s' [[answer|]|e]];
    cbn [fst] in Hr; eexists _, _; (split; [reflexivity|]);
    (split; [exact Hr|]); rewrite ?length_app; simpl; lia.
Qed.

Lemma piece_loop_bounds (prompt : string -> list (string * string))
      (pieces : list string) :
  forall (s : State) (acc : list string),
    requests_made s
    <= requests_made (fold_left (piece_step w prompt) pieces (s, acc)).1
    <= requests_made s + 3 * length pieces
    /\ length (fold_left (piece_step w prompt) pieces (s, acc)).2
       <= length acc + length pieces.
Proof.
  induction pieces as [|piece pieces IH]; intros s acc; cbn [fold_left length].
  - simpl. split; lia.
  - destruct (piece_step_bounds prompt s acc piece) as (s' & acc' & -> & Hr & Hl).
    destruct (IH s' acc') as [H1 H2]. split; lia.
Qed.

(** X18.  A text costs at most three requests for each of its pieces, and gives
    at most one answer for each, in extraction as in translation. *)
Theorem pieces_cost_bounded (s : State) (text target_lang : string) :
  requests_made (extract_metadata w s text).1
  <= requests_made s + 3 * length (_chunk_text text MAX_CHUNK_SIZE)
  /\ requests_made (translate_text w s text target_lang).1
     <= requests_made s + 3 * length (_chunk_text text MAX_CHUNK_SIZE).
Proof.
  rewrite extract_metadata_loop, translate_text_loop. cbn [fst]. split.
  - apply (piece_loop_bounds metadata_prompt _ s []).
  - apply (piece_loop_bounds (translation_prompt target_lang) _ s []).
Qed.

Lemma make_api_request_all_fail (messages : list (string * string)) (s : State) :
  api_keys (extractor s) ≠ [] ->
  (forall t req, failing (post w t req)) ->
  exists s',
    _make_api_request w messages s = (s', Raise RetryError) /\
    requests_made s' = requests_made s + 3 /\
    api_keys (extractor s') = api_keys (extractor s).
Proof.
  intros Hkeys Hfail. rewrite make_api_request_unfold.
  destruct (attempt_fails w messages s Hkeys (Hfail _))
    as (s1 & e1 & -> & Hr1 & _ & Hk1).
  destruct (attempt_fails w messages (sleep 4 s1))
    as (s2 & e2 & -> & Hr2 & _ & Hk2);
    [simpl; congruence | intros req; apply Hfail |].
  simpl in Hr2, Hk2.
  destruct (attempt_fails w messages (sleep 4 s2))
    as (s3 & e3 & -> & Hr3 & _ & Hk3);
    [simpl; congruence | intros req; apply Hfail |].
  simpl in Hr3, Hk3.
  exists s3. split; [reflexivity|]. split; [lia | congruence].
Qed.

Lemma piece_loop_all_fail (prompt : string -> list (string * string))
      (pieces : list string) :
  (forall t req, failing (post w t req)) ->
  forall (s : State) (acc : list string),
    api_keys (extractor s) ≠ [] ->
    (fold_left (piece_step w prompt) pieces (s, acc)).2 = acc /\
    requests_made (fold_left (piece_step w prompt) pieces (s, acc)).1
    = requests_made s + 3 * length pieces.
Proof.
  intros Hfail. induction pieces as [|piece pieces IH]; intros s acc Hkeys;
    cbn [fold_left length].
  - simpl. split; [reflexivity | lia].
  - destruct (make_api_request_all_fail (prompt piece) s Hkeys Hfail)
      as (s' & Hrun & Hr & Hk).
    assert (Hstep : piece_step w prompt (s, acc) piece = (s', acc))
      by (unfold piece_step; cbn [fst snd]; rewrite Hrun; reflexivity).
    rewrite Hstep.
    destruct (IH s' acc ltac:(congruence)) as [H1 H2].
    split; [exact H1 | lia].
Qed.

(** X19.  Failures are silent: when no request gets a usable answer, extraction
    and translation return the empty string without raising, after three
    requests for every piece. *)
Theorem pieces_all_fail (s : State) (text target_lang : string) :
  api_keys (extractor s) ≠ [] ->
  (forall t req, failing (post w t req)) ->
  (extract_metadata w s text).2 = ""
  /\ (translate_text w s text target_lang).2 = ""
  /\ requests_made (extract_metadata w s text).1
     = requests_made s + 3 * length (_chunk_text text MAX_CHUNK_SIZE).
Proof.
  intros Hkeys Hfail.
  rewrite extract_metadata_loop, translate_text_loop. cbn [fst snd].
  destruct (piece_loop_all_fail metadata_prompt
              (_chunk_text text MAX_CHUNK_SIZE) Hfail s [] Hkeys) as [-> ->].
  destruct (piece_loop_all_fail (translation_prompt target_lang)
              (_chunk_text text MAX_CHUNK_SIZE) Hfail s [] Hkeys) as [-> _].
  repeat split.
Qed.

Lemma piece_loop_answered (answer : nat -> list (string * string) -> string)
      (prompt : string -> list (string * string)) (pieces : list string) :
  (forall t req,
      post w t req = Response 200 "OK" (Json (Some (answer t (req_messages req))))) ->
  forall (s : State) (acc : list string),
    api_keys (extractor s) ≠ [] ->
    (fold_left (piece_step w prompt) pieces (s, acc)).2
    = (acc ++ answers_from answer prompt (requests_made s) pieces)%list /\
    requests_made (fold_left (piece_step w prompt) pieces (s, acc)).1
    = requests_made s + length pieces /\
    slept (fold_left (piece_step w prompt) pieces (s, acc)).1 = slept s.
Proof.
  intros Hpost. induction pieces as [|piece pieces IH]; intros s acc Hkeys;
    cbn [fold_left length answers_from].
  - rewrite app_nil_r. simpl. repeat split. lia.
  - assert (Hrun : exists s',
               _make_api_request w (prompt piece) s
               = (s', Return (Some (answer (requests_made s) (prompt piece)))) /\
               requests_made s' = S (requests_made s) /\
               slept s' = slept s /\
               api_keys (extractor s') = api_keys (extractor s)).
    { rewrite make_api_request_unfold. unfold attempt.
      destruct (get_next_api_key_step (extractor s) Hkeys)
        as (self' & key & -> & Hk & _).
      rewrite Hpost. cbn [raise_for_status Z.leb Z.ltb Z.compare Pos.compare
                            Pos.compare_cont andb req_messages].
      eexists. split; [reflexivity|]. simpl. auto. }
    destruct Hrun as (s' & Hrun & Hr & Hs & Hk).
    assert (Hstep : piece_step w prompt (s, acc) piece
                    = (s', (acc ++ [answer (requests_made s) (prompt piece)])%list))
      by (unfold piece_step; cbn [fst snd]; rewrite Hrun; reflexivity).
    rewrite Hstep.
    destruct (IH s' (acc ++ [answer (requests_made s) (prompt piece)])%list
                ltac:(congruence)) as (H1 & H2 & H3).
    rewrite H1, H2, H3, Hr, <- app_assoc. repeat split; [lia | exact Hs].
Qed.

(** X20.  When every request is answered at once, each piece costs one request
    and no wait, and the result is the answers to the pieces in the order
    of the pieces, joined by a blank line for the metadata and by a line
    feed for the translation. *)
Theorem pieces_answered_in_order
        (answer : nat -> list (string * string) -> string)
        (s : State) (text target_lang : string) :
  api_keys (extractor s) ≠ [] ->
  (forall t req,
      post w t req = Response 200 "OK" (Json (Some (answer t (req_messages req))))) ->
  extract_metadata w s text
  = ({| extractor := extractor (extract_metadata w s text).1;
        requests_made := requests_made s + length (_chunk_text text MAX_CHUNK_SIZE);
        slept := slept s |},
     join (NL +:+ NL)
          (answers_from answer metadata_prompt (requests_made s)
                        (_chunk_text text MAX_CHUNK_SIZE)))
  /\ (translate_text w s text target_lang).2
     = join NL (answers_from answer (translation_prompt target_lang)
                             (requests_made s)
                             (_chunk_text text MAX_CHUNK_SIZE)).
Proof.
  intros Hkeys Hpost.
  rewrite extract_metadata_loop, translate_text_loop. cbn [fst snd].
  destruct (piece_loop_answered answer metadata_prompt
              (_chunk_text text MAX_CHUNK_SIZE) Hpost s [] Hkeys)
    as (H1 & H2 & H3).
  destruct (piece_loop_answered answer (translation_prompt target_lang)
              (_chunk_text text MAX_CHUNK_SIZE) Hpost s [] Hkeys)
    as (H1' & _ & _).
  rewrite H1, H1'. split; [|reflexivity].
  f_equal. rewrite <- H2, <- H3.
  destruct (fold_left _ _ _).1. reflexivity.
Qed.

(** X21.  A text without a word costs nothing and gives the empty string. *)
Theorem blank_text_costs_nothing (s : State) (text target_lang : string) :
  strip_is_empty text = true ->
  extract_metadata w s text = (s, "")
  /\ translate_text w s text target_lang = (s, "").
Proof.
  intros Hblank. apply split_nil_iff in Hblank.
  unfold extract_metadata, translate_text, _chunk_text. rewrite Hblank.
  split; reflexivity.
Qed.

End Pieces.

(** ** The metadata run *)

Section MetadataRun.

Import Main2.

Variable w : World.



(** X23.  With a server that never gives a usable answer, a document with text
    still gets a result: empty metadata next to the detected language. *)
Theorem process_pdf_all_fail (open_pdf : string -> Pdf) (t : nat)
        (file_content : string) (extracted : list (result string))
        (first : string) (rest : list string) :
  (forall t' req, failing (post w t' req)) ->
  open_pdf file_content = Return extracted ->
  readable_pages extracted = first :: rest ->
  process_pdf w open_pdf t file_content
  = Return ("", detect_language w t first).
Proof.
  intros Hfail Hopen Hpages. unfold process_pdf. rewrite Hopen. simpl_bind.
  rewrite Hpages, extract_metadata_loop. cbn [snd].
  destruct (piece_loop_all_fail w metadata_prompt
              (_chunk_text (join (NL +:+ NL) (first :: rest)) MAX_CHUNK_SIZE)
              Hfail {| extractor := init w; requests_made := t; slept := [] |} [])
    as [-> _]; [discriminate|].
  reflexivity.
Qed.

End MetadataRun.

Lemma process_pdf_all_fail_witness :
  Main2.process_pdf unavailable three_pages 0 "" = Return ("", "en").
Proof.
  apply (process_pdf_all_fail unavailable three_pages 0 ""
           [Return "  "; Raise (ValueError "broken page"); Return "third page"]
           "third page" []).
  - intros t' req. right. reflexivity.
  - reflexivity.
  - reflexivity.
Defined.

Lemma pieces_all_fail_witness :
  (Main2.extract_metadata unavailable (fresh unavailable) "some text").2 = ""
  /\ Main2.requests_made
       (Main2.extract_metadata unavailable (fresh unavailable) "some text").1 = 3.
Proof.
  destruct (pieces_all_fail unavailable (fresh unavailable) "some text" "Nepali")
    as (Hm & _ & Hr).
  - discriminate.
  - intros t req. right. reflexivity.
  - split; [exact Hm | exact Hr].
Defined.

Lemma pieces_answered_in_order_witness :
  (Main2.extract_metadata echo (fresh echo) "hello  world").2 = "hello world".
Proof.
  destruct (pieces_answered_in_order echo
              (fun _ msgs => default "" (snd <$> last msgs))
              (fresh echo) "hello  world" "Nepali") as [H _].
  - discriminate.
  - intros t req. reflexivity.
  - rewrite H. reflexivity.
Defined.

Lemma blank_text_costs_nothing_witness :
  Main2.extract_metadata unavailable (fresh unavailable) "   "
  = (fresh unavailable, "").
Proof.
  apply (blank_text_costs_nothing unavailable (fresh unavailable) "   " "Nepali").
  reflexivity.
Defined.

(** * A run in which every request is answered *)

Section AnsweredRun.

Import Main.

Variable w : World.
Variable answer : Request -> string.
Variable language : string -> string.

Hypothesis post_answers :
  forall t req, post w t req = Response 200 "OK" (Json (Some (answer req))).
Hypothesis detect_answers :
  forall t text, detect w t text = Return (language text).

Lemma key_text_init (i : nat) :
  i < 11 ->
  key_text (init w) i = default "None" (getenv w ("API_KEY_" +:+ pretty i)).
Proof.
  intros Hi. do 11 (destruct i as [|i]; [reflexivity|]). lia.
Qed.

Lemma untouched_init : untouched w (init w).
Proof. split; reflexivity. Qed.


Lemma process_chunk_rec_answered (fuel : nat) (self : ChunkProcessor) (t i : nat)
      (chunk : list string) :
  untouched w self -> i < 11 ->
  process_chunk_rec (S fuel) w self t chunk (Z.of_nat i)
  = Some (add_used self i, S t,
          (Z.of_nat i, answered w answer language i chunk)).
Proof.
  intros [Hv Hk] Hi. cbn [process_chunk_rec].
  assert (Hkey : get_next_api_key self (Z.of_nat i) = Return i).
  { apply get_next_api_key_Return. rewrite Hv, length_seq.
    rewrite Z.mod_small by lia. rewrite Nat2Z.id. apply lookup_seq_lt. lia. }
  rewrite Hkey, detect_answers. unfold translate_text.
  rewrite post_answers.
  cbn [raise_for_status Z.leb Z.ltb Z.compare Pos.compare Pos.compare_cont
       andb json_content].
  rewrite Hk, (key_text_init i Hi). reflexivity.
Qed.

(** X8.  What a chunk sends and gets when the server answers: one request,
    with the key of its own index in the environment ([Bearer None] when
    the variable is not set), asking for English when the detector says
    [ne] and for Nepali in every other case; the answer is the translation,
    the pages joined by line feeds are the original, and one use is
    counted for the key. *)
Theorem process_chunk_answered (t i : nat) (chunk : list string) :
  i < 11 ->
  process_chunk w (init w) t chunk (Z.of_nat i)
  = Some (add_used (init w) i, S t,
          (Z.of_nat i,
           success_result
             (join NL chunk)
             (answer (translation_request w i (join NL chunk)
                                          (language (join NL chunk)))))).
Proof.
  intros Hi. unfold process_chunk.
  exact (process_chunk_rec_answered _ (init w) t i chunk untouched_init Hi).
Qed.




End AnsweredRun.

Lemma process_chunk_answered_witness :
  Main.process_chunk echo (Main.init echo) 0 ["uno"; "dos"] 2
  = Some (Main.add_used (Main.init echo) 2, 1,
          (2%Z, Main.success_result ("uno" +:+ NL +:+ "dos")
                                    ("uno" +:+ NL +:+ "dos"))).
Proof.
  apply (process_chunk_answered echo
           (fun req => default "" (snd <$> last (req_messages req)))
           (fun _ => "en")
           (fun t req => eq_refl) (fun t text => eq_refl) 0 2 ["uno"; "dos"]).
  lia.
Defined.

